(** * make_nr: making FASTA files non-redundant

    A shallow embedding of [tools/make_nr/make_nr.py] and the properties of
    its three phases: the index builder (first pass over the inputs), the
    cluster classifier, and the output rewriter (second pass).

    Modelling conventions.
    - Python [str] is [string]; the text is ASCII, as FASTA is, so character
      codes above 127 do not occur and [upper]/[isspace] leave them alone.
    - [SimpleFastaParser] belongs to Biopython, not to this repository: a
      readable file is given by the list of [(title, seq)] tuples the parser
      yields for it.  Input files are ordinary files that do not change
      during the run, so the second pass replays what the first pass read.
    - [by_seq] is a [dict]: an association list in insertion order.  Python
      3.7 and later iterate a [dict] in that order; earlier versions
      promise no order, so [make_nr_with] takes the order in which
      [by_seq.values()] yields the clusters as a parameter, and [make_nr] is
      the run in insertion order.  [representatives] is only used through
      lookup and [len] and is a [gmap]; [duplicates] is a [gset].
    - Exceptions are values of [exn]; what the program does to the outside
      (opening the output for writing, writing to it, creating a symbolic
      link, printing) is recorded, in order, in a trace of [event]s that
      survives an exception.
    - [open(output_fasta, "w")] is refused for the paths the world lists as
      unwritable, and otherwise creates or empties the file before the
      second pass reads the inputs.  The handle is buffered: the text
      written is taken to reach the file when the handle is closed, after
      the second pass, so that an input with the path of the output reads
      as an empty file there.  Two paths name the same file only when they
      are the same string; the statements about a whole run that writes
      take an output that can be opened and is none of the inputs. *)

From Stdlib Require Import Ascii String DecimalString.
From stdpp Require Import gmap strings list fin_maps.

Open Scope string_scope.
Open Scope nat_scope.
Open Scope list_scope.
Open Scope stdpp_scope.

(** ** Python strings *)

Module Py.

(** [str.isspace] on the ASCII range: tab, line feed, vertical tab, form
    feed, carriage return, the four separators 28..31, and space. *)
Definition isspace (c : ascii) : bool :=
  let n := nat_of_ascii c in
  (((9 <=? n) && (n <=? 13)) || ((28 <=? n) && (n <=? 32)))%nat.

(** [str.upper] on one ASCII character. *)
Definition upper_char (c : ascii) : ascii :=
  let n := nat_of_ascii c in
  if ((97 <=? n) && (n <=? 122))%nat then ascii_of_nat (n - 32) else c.

(** [s.upper()] *)
Fixpoint upper (s : string) : string :=
  match s with
  | EmptyString => EmptyString
  | String c s' => String (upper_char c) (upper s')
  end.

(** [s.lstrip()] *)
Fixpoint lstrip (s : string) : string :=
  match s with
  | EmptyString => EmptyString
  | String c s' => if isspace c then lstrip s' else s
  end.

(** The longest prefix without white space. *)
Fixpoint word (s : string) : string :=
  match s with
  | EmptyString => EmptyString
  | String c s' => if isspace c then EmptyString else String c (word s')
  end.

(** [sep.join(l)] *)
Fixpoint join (sep : string) (l : list string) : string :=
  match l with
  | [] => ""
  | [x] => x
  | x :: l' => x +:+ sep +:+ join sep l'
  end.

(** ["%i" % n] for a length, which is never negative. *)
Definition fmt_i (n : nat) : string := NilZero.string_of_uint (Nat.to_uint n).

End Py.

(** ** Exceptions, results and the trace of effects *)

Inductive exn : Type :=
  | KeyError
  | IndexError
  | TypeError
  | ImportError
  | OSError (path : string)
  | SystemExit (status : nat) (msg : string).

Inductive result (A : Type) : Type :=
  | Ok (a : A)
  | Raise (e : exn).
Arguments Ok {A} a.
Arguments Raise {A} e.

#[export] Instance result_ret : MRet result := λ A a, Ok a.
#[export] Instance result_bind : MBind result := λ A B f m,
  match m with
  | Ok a => f a
  | Raise e => Raise e
  end.

(** What a run does to the outside, in the order it does it. *)
Inductive event : Type :=
  | OpenW (path : string)          (* open(path, "w") *)
  | Write (path text : string)     (* handle.write(text) on that file *)
  | Symlink (src dst : string)     (* os.symlink(src, dst) *)
  | Print (line : string).         (* print(line) *)

(** A computation leaves a trace and ends with a value or an exception. *)
Definition M (A : Type) : Type := (list event * result A)%type.

#[export] Instance M_ret : MRet M := λ A a, ([], Ok a).
#[export] Instance M_bind : MBind M := λ A B f m,
  match m with
  | (t, Ok a) => let '(t', r) := f a in (t ++ t', r)
  | (t, Raise e) => (t, Raise e)
  end.

Definition lift {A} (r : result A) : M A := ([], r).
Definition emit (e : event) : M unit := ([e], Ok tt).
Definition trace {A} (m : M A) : list event := fst m.
Definition outcome {A} (m : M A) : result A := snd m.

(** ** The outside world *)

(** A FASTA record as [SimpleFastaParser] yields it: [(title, seq)]. *)
Abbreviation record := (string * string)%type.

Record world : Type := World {
  (** what [from Bio.SeqIO.FastaIO import SimpleFastaParser] does *)
  import_parser : result unit;
  (** the readable files, each with the records the parser yields for it *)
  files : gmap string (list record);
  (** the paths that cannot be opened for writing *)
  unwritable : gset string;
  (** the current directory *)
  cwd : string
}.

(** [open(f)] followed by [SimpleFastaParser(handle)]. *)
Definition open_fasta (w : world) (f : string) : result (list record) :=
  match files w !! f with
  | Some recs => Ok recs
  | None => Raise (OSError f)
  end.

(** [open(path, "w")]: an error for an unwritable path; otherwise the file
    is created, or emptied when it exists. *)
Definition open_w (w : world) (path : string) : M world :=
  if decide (path ∈ unwritable w) then lift (Raise (OSError path))
  else
    emit (OpenW path) ;;
    mret (World (import_parser w) (<[path := []]> (files w)) (unwritable w) (cwd w)).

(** The argument that reaches [os.path.abspath]: a string or a list. *)
Inductive pyobj : Type :=
  | PyStr (s : string)
  | PyList (l : list string).

(** [os.path.abspath(path)]: [os.fspath] refuses what is not a path with a
    [TypeError]; a relative path is joined to the current directory (the
    normalisation of the joined path is left out). *)
Definition abspath (w : world) (path : pyobj) : result string :=
  match path with
  | PyStr (String "/" _ as s) => Ok s
  | PyStr s => Ok (cwd w +:+ "/" +:+ s)
  | PyList _ => Raise TypeError
  end.

(** ** First pass: the index from sequence to identifiers *)

(** [title.split(None, 1)[0]]: the first word of the title; [split] gives
    the empty list for a blank title and the subscript raises. *)
Definition first_word (title : string) : result string :=
  match Py.lstrip title with
  | EmptyString => Raise IndexError
  | s => Ok (Py.word s)
  end.

(** [by_seq]: the keys in insertion order, each with its cluster. *)
Abbreviation index := (list (string * list string)).

(** [by_seq[seq]] *)
Fixpoint get (by_seq : index) (seq : string) : option (list string) :=
  match by_seq with
  | [] => None
  | (k, cluster) :: rest => if String.eqb k seq then Some cluster else get rest seq
  end.

(** [try: by_seq[seq].append(idn) except KeyError: by_seq[seq] = [idn]] *)
Fixpoint index_add (by_seq : index) (seq idn : string) : index :=
  match by_seq with
  | [] => [(seq, [idn])]
  | (k, cluster) :: rest =>
      if String.eqb k seq then (k, cluster ++ [idn]) :: rest
      else (k, cluster) :: index_add rest seq idn
  end.

(** The loop over the records of one file. *)
Fixpoint index_records (by_seq : index) (recs : list record) : result index :=
  match recs with
  | [] => Ok by_seq
  | (title, seq) :: rest =>
      idn ← first_word title;
      index_records (index_add by_seq (Py.upper seq) idn) rest
  end.

(** The loop over the files. *)
Fixpoint index_files (w : world) (by_seq : index) (input_fasta : list string)
  : result index :=
  match input_fasta with
  | [] => Ok by_seq
  | f :: rest =>
      recs ← open_fasta w f;
      by_seq' ← index_records by_seq recs;
      index_files w by_seq' rest
  end.

(** ** The classifier *)

Record classes : Type := Classes {
  unique : nat;
  representatives : gmap string (list string);
  duplicates : gset string
}.

(** The body of [for cluster in by_seq.values()]: [len(cluster) > 1] is the
    shape [_ :: _ :: _], where [cluster[0]] is the head and [cluster[1:]]
    the tail. *)
Definition classify_step (c : classes) (cluster : list string) : classes :=
  match cluster with
  | c0 :: (_ :: _) as rest =>
      Classes (unique c)
              (<[c0 := cluster]> (representatives c))
              (duplicates c ∪ list_to_set rest)
  | _ => Classes (S (unique c)) (representatives c) (duplicates c)
  end.

Definition classify_from (c : classes) (clusters : list (list string)) : classes :=
  foldl classify_step c clusters.

Definition classify (by_seq : index) : classes :=
  classify_from (Classes 0 ∅ ∅) (by_seq.*2).

(** ** Second pass: the rewriter *)

Definition nl : string := String (ascii_of_nat 10) "".

(** [">%s\n%s\n" % (title, seq)] *)
Definition fasta_entry (title seq : string) : string :=
  ">" +:+ title +:+ nl +:+ seq +:+ nl.

(** ["%s representing %i records" % (sep.join(cluster), len(cluster))] *)
Definition combined_title (sep : string) (cluster : list string) : string :=
  Py.join sep cluster +:+ " representing " +:+ Py.fmt_i (length cluster) +:+ " records".

(** The body of the inner loop of the second pass. *)
Definition rewrite_record (c : classes) (sep output_fasta : string) (rec : record)
  : M unit :=
  let '(title, seq) := rec in
  idn ← lift (first_word title);
  match representatives c !! idn with
  | Some cluster =>
      emit (Write output_fasta (fasta_entry (combined_title sep cluster) seq))
  | None =>
      if decide (idn ∈ duplicates c) then mret tt
      else emit (Write output_fasta (fasta_entry title seq))
  end.

Fixpoint rewrite_records (c : classes) (sep output_fasta : string)
  (recs : list record) : M unit :=
  match recs with
  | [] => mret tt
  | rec :: rest =>
      rewrite_record c sep output_fasta rec ;;
      rewrite_records c sep output_fasta rest
  end.

Fixpoint rewrite_files (w : world) (c : classes) (sep output_fasta : string)
  (input_fasta : list string) : M unit :=
  match input_fasta with
  | [] => mret tt
  | f :: rest =>
      recs ← lift (open_fasta w f);
      rewrite_records c sep output_fasta recs ;;
      rewrite_files w c sep output_fasta rest
  end.

(** ** The program *)

(** [try: from ... import SimpleFastaParser except KeyError: sys.exit(...)]:
    only a [KeyError] reaches the handler. *)
Definition load_parser (w : world) : result unit :=
  match import_parser w with
  | Raise KeyError => Raise (SystemExit 1 "Missing Biopython")
  | r => r
  end.

Definition summary (c : classes) : string :=
  Py.fmt_i (unique c) +:+ " unique entries; removed "
  +:+ Py.fmt_i (size (duplicates c)) +:+ " duplicates leaving "
  +:+ Py.fmt_i (size (representatives c)) +:+ " representative records".

Definition summary_unique (c : classes) : string :=
  "No perfect duplicates in file, " +:+ Py.fmt_i (unique c) +:+ " unique entries".

(** [make_nr(input_fasta, output_fasta, sep)] on an interpreter whose
    [by_seq.values()] yields the clusters in the order [values by_seq];
    [input_fasta] is the list of file names, and the whole list is what the
    last branch hands to [os.path.abspath]. *)
Definition make_nr_with (values : index → list (list string)) (w : world)
  (input_fasta : list string) (output_fasta sep : string) : M unit :=
  lift (load_parser w) ;;
  by_seq ← lift (index_files w [] input_fasta);
  let c := classify_from (Classes 0 ∅ ∅) (values by_seq) in
  if decide (duplicates c ≠ ∅) then
    w' ← open_w w output_fasta;
    rewrite_files w' c sep output_fasta input_fasta ;;
    emit (Print (summary c))
  else
    src ← lift (abspath w (PyList input_fasta));
    emit (Symlink src output_fasta) ;;
    emit (Print (summary_unique c)).

(** The run where the dictionary yields its values in insertion order. *)
Definition make_nr (w : world) (input_fasta : list string)
  (output_fasta sep : string) : M unit :=
  make_nr_with (λ by_seq, by_seq.*2) w input_fasta output_fasta sep.

(** The module body after option parsing: [argv] is [sys.argv], [args] the
    positional arguments, [output] and [sep] the two options. *)
Definition main (w : world) (argv args : list string) (output sep : string)
  : M unit :=
  if decide ("-v" ∈ argv ∨ "--version" ∈ argv) then
    emit (Print "v0.0.0") ;; lift (Raise (SystemExit 0 ""))
  else
    match args with
    | [] => lift (Raise (SystemExit 1 "Expects at least one input FASTA filename"))
    | _ => make_nr w args output sep
    end.

(** ** The stream, the entries and the index as the statements see them *)

(** All the records of the named files, in argument order then stream
    order: what each pass iterates over. *)
Fixpoint stream (w : world) (input_fasta : list string) : result (list record) :=
  match input_fasta with
  | [] => Ok []
  | f :: rest =>
      recs ← open_fasta w f;
      more ← stream w rest;
      Ok (recs ++ more)
  end.

(** The [(idn, key)] pair the first pass computes for each record, where
    [key] is the upper-cased sequence. *)
Fixpoint entries (recs : list record) : result (list (string * string)) :=
  match recs with
  | [] => Ok []
  | (title, seq) :: rest =>
      idn ← first_word title;
      more ← entries rest;
      Ok ((idn, Py.upper seq) :: more)
  end.

(** The index after the entries [ps] have been added to [by_seq]. *)
Definition index_of (by_seq : index) (ps : list (string * string)) : index :=
  foldl (λ acc p, index_add acc p.2 p.1) by_seq ps.

(** The identifiers of the entries with key [k], in order. *)
Definition ids_with (k : string) (ps : list (string * string)) : list string :=
  (filter (λ p, p.2 = k) ps).*1.

(** What the second pass does for a list of records: what it does for
    each, in the order of the list. *)
Definition replay (c : classes) (sep output_fasta : string)
  (recs : list record) : list event :=
  concat ((λ rec, trace (rewrite_record c sep output_fasta rec)) <$> recs).

(** The record at position [n] is the first occurrence of [cluster]: the
    index has [cluster] under the upper-cased sequence of this record, and
    no earlier record has that sequence. *)
Definition first_occurrence_of (cluster : list string) (by_seq : index)
  (recs : list record) (n : nat) : Prop :=
  ∃ title seq, recs !! n = Some (title, seq) ∧
    get by_seq (Py.upper seq) = Some cluster ∧
    ∀ m title' seq', m < n → recs !! m = Some (title', seq') →
      Py.upper seq' ≠ Py.upper seq.

(** What the loop body of the second pass can do with a record. *)
Inductive action : Type :=
  | Combine (cluster : list string)
  | Skip
  | Keep.

(** The choice among them, from the identifier alone. *)
Definition decision (c : classes) (idn : string) : action :=
  match representatives c !! idn with
  | Some cluster => Combine cluster
  | None => if decide (idn ∈ duplicates c) then Skip else Keep
  end.

(** The text an action gives for a record. *)
Definition perform (sep : string) (a : action) (rec : record) : list string :=
  match a with
  | Combine cluster => [fasta_entry (combined_title sep cluster) rec.2]
  | Skip => []
  | Keep => [fasta_entry rec.1 rec.2]
  end.

(** The keys of a list, each once, in the order of their first occurrences. *)
Fixpoint first_seen (keys : list string) : list string :=
  match keys with
  | [] => []
  | k :: rest => k :: filter (λ k', k' ≠ k) (first_seen rest)
  end.

(** The first members of the clusters with more than one member. *)
Definition heads (clusters : list (list string)) : list string :=
  omap (λ cluster, match cluster with c0 :: _ :: _ => Some c0 | _ => None end)
       clusters.

(** The records that stay when each upper-cased sequence is kept once, at
    its first occurrence; [seen] holds the sequences met so far. *)
Fixpoint first_occurrences (seen : list string) (recs : list record)
  : list record :=
  match recs with
  | [] => []
  | (title, seq) :: rest =>
      if decide (Py.upper seq ∈ seen) then first_occurrences seen rest
      else (title, seq) :: first_occurrences (Py.upper seq :: seen) rest
  end.


(** A string of white space only, and a word: not empty, no white space. *)
Definition blank (s : string) : Prop :=
  Forall (λ c, Py.isspace c = true) (list_ascii_of_string s).

Definition solid (s : string) : Prop :=
  s ≠ "" ∧ Forall (λ c, Py.isspace c = false) (list_ascii_of_string s).

(** What may follow the first word: nothing, or white space and the rest. *)
Definition after_word (s : string) : Prop :=
  s = "" ∨ ∃ c rest, s = String c rest ∧ Py.isspace c = true.

(** [sum(len(cluster) for cluster in representatives.values())]: the sizes
    of the clusters the classifier keeps. *)
Definition cluster_sizes (c : classes) : nat :=
  map_fold (λ _ cluster n, length cluster + n) 0 (representatives c).

(** ** Sample inputs *)

(** One file, no two records with the same sequence. *)
Definition w_unique : world :=
  World (Ok tt) {[ "A.fasta" := [("r1", "ACGT"); ("r3", "GGCC")] ]} ∅ "/data".

(** The scenario of one file with a duplicated sequence. *)
Definition w_scenario : world :=
  World (Ok tt)
        {[ "A.fasta" := [("r1", "ACGT"); ("r2 x", "ACGT"); ("r3", "GGCC")] ]}
        ∅ "/data".

(** Two files, each with one record, the sequences equal up to case. *)
Definition w_two_files : world :=
  World (Ok tt) {[ "A.fasta" := [("a", "ACGT")]; "B.fasta" := [("b", "acgt")] ]}
        ∅ "/data".

(** One identifier on two records with the same sequence. *)
Definition w_repeated_id : world :=
  World (Ok tt) {[ "A.fasta" := [("a", "AA"); ("a", "AA")] ]} ∅ "/data".

(** The identifier [a] on records of two sequences, the first of them
    shared with [b]. *)
Definition w_shared_id : world :=
  World (Ok tt) {[ "A.fasta" := [("a", "AA"); ("b", "AA"); ("a", "GG")] ]} ∅ "/data".

(** The identifier [a] first on the records of two duplicated sequences. *)
Definition w_two_heads : world :=
  World (Ok tt)
        {[ "A.fasta" :=
             [("a", "ACGT"); ("b", "ACGT"); ("a", "GGGG"); ("c", "GGGG")] ]}
        ∅ "/data".

(** The identifier [b] is the second member of one cluster, the first of
    another, and is also on a record whose sequence no other record has. *)
Definition w_key_and_suppressed : world :=
  World (Ok tt)
        {[ "A.fasta" :=
             [("a", "AA"); ("b", "AA"); ("b", "CC"); ("c", "CC"); ("b", "GG")] ]}
        ∅ "/data".

(** * Properties *)

(** ** The string functions on examples *)

Example upper_mixed : Py.upper "acGt-n*" = "ACGT-N*".
Proof. reflexivity. Qed.

Example join_three : Py.join ";" ["a"; "b"; "c"] = "a;b;c".
Proof. reflexivity. Qed.

Example fmt_i_12 : Py.fmt_i 12 = "12" ∧ Py.fmt_i 0 = "0".
Proof. split; reflexivity. Qed.

(** ** The record stream and its entries *)

Lemma entries_app recs1 recs2 :
  entries (recs1 ++ recs2) =
    ps1 ← entries recs1; ps2 ← entries recs2; Ok (ps1 ++ ps2).
Proof.
  induction recs1 as [|[title seq] recs1 IH]; simpl.
  - by destruct (entries recs2).
  - destruct (first_word title); simpl; [|done].
    rewrite IH. destruct (entries recs1); simpl; [|done].
    by destruct (entries recs2).
Qed.

Lemma entries_app_ok recs1 recs2 ps :
  entries (recs1 ++ recs2) = Ok ps →
  ∃ ps1 ps2, entries recs1 = Ok ps1 ∧ entries recs2 = Ok ps2 ∧ ps = ps1 ++ ps2.
Proof.
  rewrite entries_app. intros H.
  destruct (entries recs1) as [ps1|]; simpl in H; [|done].
  destruct (entries recs2) as [ps2|]; simpl in H; [|done].
  exists ps1, ps2. by inversion H.
Qed.

Lemma entries_length recs ps : entries recs = Ok ps → length ps = length recs.
Proof.
  revert ps. induction recs as [|[title seq] recs IH]; intros ps; simpl.
  - by intros [= <-].
  - destruct (first_word title); simpl; [|done].
    destruct (entries recs) as [more|]; simpl; [|done].
    intros [= <-]. simpl. f_equal. by apply IH.
Qed.

Lemma entries_lookup recs ps n title seq :
  entries recs = Ok ps → recs !! n = Some (title, seq) →
  ∃ idn, first_word title = Ok idn ∧ ps !! n = Some (idn, Py.upper seq).
Proof.
  revert ps n. induction recs as [|[t s] recs IH]; intros ps n; simpl; [done|].
  destruct (first_word t) as [i|] eqn:Hi; simpl; [|done].
  destruct (entries recs) as [more|]; simpl; [|done].
  intros [= <-]. destruct n as [|n]; simpl.
  - intros [= -> ->]. eauto.
  - intros Hn. by apply (IH more n).
Qed.


(** Every title has a first word exactly when the entries exist. *)
Lemma entries_total recs :
  Forall (λ rec, ∃ idn, first_word rec.1 = Ok idn) recs → ∃ ps, entries recs = Ok ps.
Proof.
  induction 1 as [|[title seq] recs [idn Hi] _ [ps IH]]; simpl; [by eexists|].
  simpl in Hi. rewrite Hi, IH. simpl. by eexists.
Qed.

(** The first pass over one file is the fold of [index_add] over its
    entries, and fails exactly when some title is blank. *)
Lemma index_records_entries by_seq recs :
  index_records by_seq recs = ps ← entries recs; Ok (index_of by_seq ps).
Proof.
  revert by_seq. induction recs as [|[title seq] recs IH]; intros by_seq; simpl.
  - done.
  - destruct (first_word title) as [idn|]; simpl; [|done].
    rewrite IH. by destruct (entries recs).
Qed.

Lemma index_of_app by_seq ps1 ps2 :
  index_of by_seq (ps1 ++ ps2) = index_of (index_of by_seq ps1) ps2.
Proof. apply foldl_app. Qed.

(** The first pass over all the files succeeds exactly when every file
    opens and every title has a first word, and then the index is the fold
    over the entries of the whole stream. *)
Lemma index_files_ok w by_seq input_fasta recs ps :
  stream w input_fasta = Ok recs → entries recs = Ok ps →
  index_files w by_seq input_fasta = Ok (index_of by_seq ps).
Proof.
  revert by_seq recs ps.
  induction input_fasta as [|f rest IH]; intros by_seq recs ps; simpl.
  - by intros [= <-] [= <-].
  - destruct (open_fasta w f) as [recs1|]; simpl; [|done].
    destruct (stream w rest) as [recs2|]; simpl; [|done].
    intros [= <-] (ps1 & ps2 & H1 & H2 & ->)%entries_app_ok.
    rewrite index_records_entries, H1. simpl.
    rewrite index_of_app. by eapply IH.
Qed.

Lemma index_files_inv w by_seq input_fasta by_seq' :
  index_files w by_seq input_fasta = Ok by_seq' →
  ∃ recs ps, stream w input_fasta = Ok recs ∧ entries recs = Ok ps
             ∧ by_seq' = index_of by_seq ps.
Proof.
  revert by_seq by_seq'.
  induction input_fasta as [|f rest IH]; intros by_seq by_seq'; simpl.
  - intros [= <-]. by exists [], [].
  - destruct (open_fasta w f) as [recs1|]; simpl; [|done].
    rewrite index_records_entries.
    destruct (entries recs1) as [ps1|] eqn:H1; simpl; [|done].
    intros (recs2 & ps2 & -> & H2 & ->)%IH. simpl.
    exists (recs1 ++ recs2), (ps1 ++ ps2).
    rewrite entries_app, H1, H2, index_of_app. done.
Qed.

(** ** The index *)

Lemma get_index_add by_seq seq idn k :
  get (index_add by_seq seq idn) k =
    if decide (seq = k) then Some (default [] (get by_seq seq) ++ [idn])
    else get by_seq k.
Proof.
  induction by_seq as [|[k' cluster] rest IH]; simpl.
  - destruct (String.eqb_spec seq k); by case_decide.
  - destruct (String.eqb_spec k' seq) as [->|Hne]; simpl.
    + destruct (String.eqb_spec seq k); by case_decide.
    + rewrite IH. destruct (String.eqb_spec k' k) as [->|]; [|done].
      by case_decide.
Qed.

Lemma ids_with_cons k p ps :
  ids_with k (p :: ps) = if decide (p.2 = k) then p.1 :: ids_with k ps else ids_with k ps.
Proof. unfold ids_with. rewrite filter_cons. by case_decide. Qed.

(** The cluster of a key holds the identifiers of the entries with that
    key, after those it held before, in the order the entries came. *)
Lemma get_index_of by_seq ps k :
  get (index_of by_seq ps) k =
    match get by_seq k, ids_with k ps with
    | None, [] => None
    | o, ids => Some (default [] o ++ ids)
    end.
Proof.
  revert by_seq. induction ps as [|[idn seq] ps IH]; intros by_seq.
  - simpl. destruct (get by_seq k); simpl; [by rewrite app_nil_r|done].
  - unfold index_of. simpl. fold (index_of (index_add by_seq seq idn) ps).
    rewrite IH, get_index_add, ids_with_cons. simpl.
    case_decide as Hk; [subst seq|done].
    destruct (get by_seq k) as [old|]; simpl.
    + rewrite <-app_assoc. simpl. by destruct (ids_with k ps).
    + done.
Qed.

Lemma index_add_keys by_seq seq idn k :
  k ∈ (index_add by_seq seq idn).*1 ↔ k = seq ∨ k ∈ by_seq.*1.
Proof.
  induction by_seq as [|[k' cluster] rest IH]; simpl.
  - rewrite list_elem_of_singleton, elem_of_nil. tauto.
  - destruct (String.eqb_spec k' seq) as [->|Hne]; simpl;
      rewrite !elem_of_cons, ?IH; tauto.
Qed.

Lemma index_add_NoDup by_seq seq idn :
  NoDup by_seq.*1 → NoDup (index_add by_seq seq idn).*1.
Proof.
  induction by_seq as [|[k' cluster] rest IH]; simpl.
  - intros _. apply NoDup_singleton.
  - intros [Hk' Hrest]%NoDup_cons.
    destruct (String.eqb_spec k' seq) as [->|Hne]; simpl.
    + by apply NoDup_cons.
    + apply NoDup_cons. split; [|by apply IH].
      rewrite index_add_keys. by intros [?|?].
Qed.

Lemma index_add_concat by_seq seq idn :
  concat (index_add by_seq seq idn).*2 ≡ₚ idn :: concat by_seq.*2.
Proof.
  induction by_seq as [|[k' cluster] rest IH]; simpl.
  - done.
  - destruct (String.eqb_spec k' seq) as [->|Hne]; simpl.
    + rewrite <-app_assoc. simpl.
      by rewrite <-Permutation_middle.
    + rewrite IH. by rewrite <-Permutation_middle.
Qed.

Lemma index_add_nonempty by_seq seq idn :
  Forall (λ cluster, cluster ≠ []) by_seq.*2 →
  Forall (λ cluster, cluster ≠ []) (index_add by_seq seq idn).*2.
Proof.
  induction by_seq as [|[k' cluster] rest IH]; simpl.
  - intros _. by repeat constructor.
  - intros [Hc Hrest]%Forall_cons.
    destruct (String.eqb_spec k' seq) as [->|Hne]; simpl.
    + constructor; [|done]. by destruct cluster.
    + constructor; [done|by apply IH].
Qed.

Section index_of.
Context (ps : list (string * string)).

(** The keys of the index are pairwise distinct. *)
Lemma index_of_NoDup by_seq :
  NoDup by_seq.*1 → NoDup (index_of by_seq ps).*1.
Proof.
  revert by_seq. induction ps as [|p ps' IH]; intros by_seq H; simpl; [done|].
  apply IH. by apply index_add_NoDup.
Qed.

(** The clusters hold every identifier once per entry. *)
Lemma index_of_concat by_seq :
  concat (index_of by_seq ps).*2 ≡ₚ concat by_seq.*2 ++ ps.*1.
Proof.
  revert by_seq. induction ps as [|p ps' IH]; intros by_seq; simpl.
  - by rewrite app_nil_r.
  - unfold index_of in IH. rewrite IH, index_add_concat. simpl.
    apply Permutation_middle.
Qed.

(** No cluster is empty. *)
Lemma index_of_nonempty by_seq :
  Forall (λ cluster, cluster ≠ []) by_seq.*2 →
  Forall (λ cluster, cluster ≠ []) (index_of by_seq ps).*2.
Proof.
  revert by_seq. induction ps as [|p ps' IH]; intros by_seq H; simpl; [done|].
  apply IH. by apply index_add_nonempty.
Qed.
End index_of.



(** ** The classifier *)

(** The two cases of the loop body. *)
Lemma classify_step_duplicate c c0 c1 rest :
  classify_step c (c0 :: c1 :: rest) =
    Classes (unique c)
            (<[c0 := c0 :: c1 :: rest]> (representatives c))
            (duplicates c ∪ list_to_set (c1 :: rest)).
Proof. done. Qed.

Lemma classify_step_single c cluster :
  length cluster ≤ 1 →
  classify_step c cluster = Classes (S (unique c)) (representatives c) (duplicates c).
Proof. destruct cluster as [|c0 [|c1 rest]]; simpl; [done|done|lia]. Qed.

Lemma classify_from_cons c cluster clusters :
  classify_from c (cluster :: clusters) = classify_from (classify_step c cluster) clusters.
Proof. done. Qed.

(** A property that every step keeps holds at the end of the loop. *)
Lemma classify_from_ind (P : classes → Prop) c clusters :
  P c → (∀ c' cluster, cluster ∈ clusters → P c' → P (classify_step c' cluster)) →
  P (classify_from c clusters).
Proof.
  revert c. induction clusters as [|cluster clusters IH]; intros c Hc Hstep; [done|].
  rewrite classify_from_cons. apply IH.
  - apply Hstep; [by left|done].
  - intros c' cluster' Hin. apply Hstep. by right.
Qed.

(** [unique] counts the clusters that are not duplicates. *)
Lemma classify_from_unique c clusters :
  unique (classify_from c clusters) =
    unique c + length (filter (λ cluster, length cluster ≤ 1) clusters).
Proof.
  revert c. induction clusters as [|cluster clusters IH]; intros c.
  - simpl. lia.
  - rewrite classify_from_cons, IH, filter_cons.
    case_decide as Hlen.
    + rewrite classify_step_single by done. simpl. lia.
    + destruct cluster as [|c0 [|c1 rest]]; simpl in *; try lia.
  Qed.

(** [duplicates] holds the members after the first of the duplicate
    clusters. *)
Lemma classify_from_duplicates c clusters x :
  x ∈ duplicates (classify_from c clusters) ↔
    x ∈ duplicates c ∨
    ∃ c0 rest, (c0 :: rest) ∈ clusters ∧ rest ≠ [] ∧ x ∈ rest.
Proof.
  revert c. induction clusters as [|cluster clusters IH]; intros c.
  - simpl. split; [by left|]. intros [?|(? & ? & ?%elem_of_nil & _)]; done.
  - rewrite classify_from_cons, IH. clear IH.
    destruct cluster as [|c0 [|c1 rest]];
      [simpl..|rewrite classify_step_duplicate; cbn [duplicates]].
    + split.
      * intros [?|(c0 & rest & Hin & ? & ?)]; [by left|].
        right. exists c0, rest. split; [by right|done].
      * intros [?|(c0 & rest & Hin & ? & ?)]; [by left|].
        apply elem_of_cons in Hin as [?|?]; [done|]. right. eauto.
    + split.
      * intros [?|(c0' & rest & Hin & ? & ?)]; [by left|].
        right. exists c0', rest. split; [by right|done].
      * intros [?|(c0' & rest & Hin & ? & ?)]; [by left|].
        apply elem_of_cons in Hin as [[= -> ->]|?]; [done|]. right. eauto.
    + rewrite elem_of_union, elem_of_list_to_set. split.
      * intros [[?|?]|(c0' & rest' & Hin & ? & ?)].
        -- by left.
        -- right. exists c0, (c1 :: rest). split; [by left|done].
        -- right. exists c0', rest'. split; [by right|done].
      * intros [?|(c0' & rest' & Hin & ? & ?)]; [by left; left|].
        apply elem_of_cons in Hin as [[= -> ->]|?]; [by left; right|].
        right. eauto.
Qed.

(** Every entry of [representatives] maps the first member of a duplicate
    cluster to that cluster. *)
Lemma classify_from_representatives c clusters idn cluster :
  representatives (classify_from c clusters) !! idn = Some cluster →
  representatives c !! idn = Some cluster ∨
  ∃ rest, cluster = idn :: rest ∧ rest ≠ [] ∧ cluster ∈ clusters.
Proof.
  revert c. induction clusters as [|cl clusters IH]; intros c.
  - by left.
  - rewrite classify_from_cons. intros [H|(rest & -> & ? & ?)]%IH.
    + destruct cl as [|c0 [|c1 rest]]; simpl in H; [by left..|].
      destruct (decide (c0 = idn)) as [->|Hne].
      * rewrite lookup_insert_eq in H. injection H as <-.
        right. exists (c1 :: rest). split; [done|]. split; [done|by left].
      * rewrite lookup_insert_ne in H by done. by left.
    + right. exists rest. split; [done|]. split; [done|by right].
Qed.

(** The first member of every duplicate cluster is a key of
    [representatives]. *)
Lemma classify_from_representatives_dom c clusters idn :
  (is_Some (representatives c !! idn) ∨
   ∃ rest, rest ≠ [] ∧ (idn :: rest) ∈ clusters) →
  is_Some (representatives (classify_from c clusters) !! idn).
Proof.
  revert c. induction clusters as [|cl clusters IH]; intros c.
  - intros [?|(? & _ & ?%elem_of_nil)]; done.
  - rewrite classify_from_cons. intros H. apply IH.
    destruct H as [H|(rest & Hrest & [<-|Hin]%elem_of_cons)].
    + left. destruct cl as [|c0 [|c1 rest]]; simpl; [done..|].
      destruct (decide (c0 = idn)) as [->|Hne].
      * rewrite lookup_insert_eq. by eexists.
      * by rewrite lookup_insert_ne.
    + left. destruct rest as [|c1 rest]; [done|]. simpl.
      rewrite lookup_insert_eq. by eexists.
    + right. eauto.
Qed.

(** One map is empty exactly when the other is. *)
Lemma classify_from_empty_iff c clusters :
  (representatives c = ∅ ↔ duplicates c = ∅) →
  (representatives (classify_from c clusters) = ∅
   ↔ duplicates (classify_from c clusters) = ∅).
Proof.
  intros Hc. apply classify_from_ind; [done|].
  intros c' [|c0 [|c1 rest]] _ IH; [done..|].
  rewrite classify_step_duplicate. cbn [representatives duplicates].
  split.
  - intros H. by apply insert_non_empty in H.
  - intros H. exfalso.
    assert (c1 ∈ duplicates c' ∪ list_to_set (c1 :: rest)) as Hin.
    { apply elem_of_union_r, elem_of_list_to_set. by left. }
    rewrite H in Hin. by apply not_elem_of_empty in Hin.
Qed.

(** ** The rewriter *)

Section rewriter.
Context (c : classes) (sep output_fasta : string).

(** The three cases of the loop body. *)
Lemma rewrite_record_representative title seq idn cluster :
  first_word title = Ok idn → representatives c !! idn = Some cluster →
  rewrite_record c sep output_fasta (title, seq) =
    ([Write output_fasta (fasta_entry (combined_title sep cluster) seq)], Ok tt).
Proof. intros Hi Hrep. unfold rewrite_record. by rewrite Hi; simpl; rewrite Hrep. Qed.

Lemma rewrite_record_suppressed title seq idn :
  first_word title = Ok idn → representatives c !! idn = None →
  idn ∈ duplicates c →
  rewrite_record c sep output_fasta (title, seq) = ([], Ok tt).
Proof.
  intros Hi Hrep Hdup. unfold rewrite_record.
  rewrite Hi; simpl; rewrite Hrep. by rewrite decide_True.
Qed.

Lemma rewrite_record_unchanged title seq idn :
  first_word title = Ok idn → representatives c !! idn = None →
  idn ∉ duplicates c →
  rewrite_record c sep output_fasta (title, seq) =
    ([Write output_fasta (fasta_entry title seq)], Ok tt).
Proof.
  intros Hi Hrep Hdup. unfold rewrite_record.
  rewrite Hi; simpl; rewrite Hrep. by rewrite decide_False.
Qed.

Lemma rewrite_record_ok title seq idn :
  first_word title = Ok idn →
  outcome (rewrite_record c sep output_fasta (title, seq)) = Ok tt.
Proof.
  intros Hi. destruct (representatives c !! idn) as [cluster|] eqn:Hrep.
  - by erewrite rewrite_record_representative.
  - destruct (decide (idn ∈ duplicates c)).
    + by erewrite rewrite_record_suppressed.
    + by erewrite rewrite_record_unchanged.
Qed.

Lemma replay_app recs1 recs2 :
  replay c sep output_fasta (recs1 ++ recs2) =
    replay c sep output_fasta recs1 ++ replay c sep output_fasta recs2.
Proof. unfold replay. by rewrite fmap_app, concat_app. Qed.

Lemma rewrite_records_ok recs ps :
  entries recs = Ok ps →
  rewrite_records c sep output_fasta recs = (replay c sep output_fasta recs, Ok tt).
Proof.
  revert ps. induction recs as [|[title seq] recs IH]; intros ps H; [done|].
  cbn [entries] in H.
  destruct (first_word title) as [idn|] eqn:Hi; simpl in H; [|done].
  destruct (entries recs) as [more|]; simpl in H; [|done].
  pose proof (rewrite_record_ok title seq idn Hi) as Hok.
  change (rewrite_records c sep output_fasta ((title, seq) :: recs))
    with (rewrite_record c sep output_fasta (title, seq) ;;
          rewrite_records c sep output_fasta recs).
  rewrite (IH more eq_refl). unfold replay. rewrite fmap_cons.
  destruct (rewrite_record c sep output_fasta (title, seq)) as [t r].
  simpl in Hok. by subst r.
Qed.

Lemma rewrite_files_ok w input_fasta recs ps :
  stream w input_fasta = Ok recs → entries recs = Ok ps →
  rewrite_files w c sep output_fasta input_fasta =
    (replay c sep output_fasta recs, Ok tt).
Proof.
  revert recs ps. induction input_fasta as [|f rest IH]; intros recs ps; simpl.
  - by intros [= <-].
  - destruct (open_fasta w f) as [recs1|]; simpl; [|done].
    destruct (stream w rest) as [recs2|]; simpl; [|done].
    intros [= <-] (ps1 & ps2 & H1 & H2 & ->)%entries_app_ok.
    unfold mbind, M_bind, lift.
    rewrite (rewrite_records_ok recs1 ps1 H1), (IH recs2 ps2 eq_refl H2).
    by rewrite replay_app.
Qed.
End rewriter.

(** The loop body does what the decision taken from the identifier gives. *)
Lemma rewrite_record_decision c sep output_fasta title seq idn :
  first_word title = Ok idn →
  rewrite_record c sep output_fasta (title, seq) =
    (Write output_fasta <$> perform sep (decision c idn) (title, seq), Ok tt).
Proof.
  intros Hi. unfold rewrite_record, decision. rewrite Hi. simpl.
  destruct (representatives c !! idn); [done|]. by case_decide.
Qed.

Lemma replay_decision c sep output_fasta recs ps :
  entries recs = Ok ps →
  replay c sep output_fasta recs =
    Write output_fasta
      <$> concat (zip_with (λ p rec, perform sep (decision c p.1) rec) ps recs).
Proof.
  revert ps. induction recs as [|[title seq] recs IH]; intros ps.
  - by intros [= <-].
  - cbn [entries]. destruct (first_word title) as [idn|] eqn:Hi; simpl; [|done].
    destruct (entries recs) as [more|] eqn:He; simpl; [|done]. intros [= <-].
    unfold replay. rewrite fmap_cons. cbn [concat zip_with].
    rewrite fmap_app. fold (replay c sep output_fasta recs).
    rewrite (IH more eq_refl).
    by rewrite (rewrite_record_decision c sep output_fasta title seq idn Hi).
Qed.

(** ** The files a pass reads *)

Section two_worlds.
Context (w1 w2 : world) (input_fasta : list string).
Hypothesis same_files : ∀ f, f ∈ input_fasta → files w1 !! f = files w2 !! f.

Lemma open_fasta_ext f : f ∈ input_fasta → open_fasta w1 f = open_fasta w2 f.
Proof. intros Hf. unfold open_fasta. by rewrite (same_files f Hf). Qed.

Lemma index_files_ext by_seq fs :
  fs ⊆ input_fasta → index_files w1 by_seq fs = index_files w2 by_seq fs.
Proof.
  revert by_seq. induction fs as [|f rest IH]; intros by_seq Hsub; [done|].
  simpl. rewrite open_fasta_ext by (apply Hsub; by left).
  destruct (open_fasta w2 f) as [recs|]; simpl; [|done].
  destruct (index_records by_seq recs) as [by_seq'|]; simpl; [|done].
  apply IH. intros x Hx. apply Hsub. by right.
Qed.

Lemma rewrite_files_ext c sep output_fasta fs :
  fs ⊆ input_fasta →
  rewrite_files w1 c sep output_fasta fs = rewrite_files w2 c sep output_fasta fs.
Proof.
  induction fs as [|f rest IH]; intros Hsub; [done|].
  simpl. rewrite open_fasta_ext by (apply Hsub; by left).
  rewrite IH; [done|]. intros x Hx. apply Hsub. by right.
Qed.
End two_worlds.

(** Opening an output that is none of the inputs leaves the second pass the
    files of the first. *)
Lemma rewrite_files_opened w c sep output_fasta input_fasta :
  output_fasta ∉ input_fasta →
  rewrite_files
    (World (import_parser w) (<[output_fasta := []]> (files w)) (unwritable w) (cwd w))
    c sep output_fasta input_fasta
  = rewrite_files w c sep output_fasta input_fasta.
Proof.
  intros Hout. apply (rewrite_files_ext _ _ input_fasta); [|done].
  intros f Hf. simpl. apply lookup_insert_ne. by intros ->.
Qed.

(** ** The effects of a run *)

Lemma bind_trace {A B} (m : M A) (f : A → M B) e :
  e ∈ trace (m ≫= f) → e ∈ trace m ∨ ∃ a, e ∈ trace (f a).
Proof.
  destruct m as [t [a|e']]; unfold mbind, M_bind; simpl; [|by left].
  destruct (f a) as [t' r] eqn:Hfa. simpl.
  intros [?|?]%elem_of_app; [by left|]. right. exists a. by rewrite Hfa.
Qed.

Lemma rewrite_record_events c sep output_fasta rec e :
  e ∈ trace (rewrite_record c sep output_fasta rec) →
  ∃ text, e = Write output_fasta text.
Proof.
  destruct rec as [title seq]. unfold rewrite_record.
  destruct (first_word title) as [idn|]; simpl; [|by intros ?%elem_of_nil].
  destruct (representatives c !! idn); [|case_decide]; simpl;
    rewrite ?elem_of_nil, ?list_elem_of_singleton; try done;
    intros ->; by eexists.
Qed.

Lemma rewrite_records_events c sep output_fasta recs e :
  e ∈ trace (rewrite_records c sep output_fasta recs) →
  ∃ text, e = Write output_fasta text.
Proof.
  induction recs as [|rec recs IH]; [by intros ?%elem_of_nil|].
  cbn [rewrite_records]. intros [Hin|[[] Hin]]%bind_trace.
  - by eapply rewrite_record_events.
  - by apply IH.
Qed.

Lemma rewrite_files_events w c sep output_fasta input_fasta e :
  e ∈ trace (rewrite_files w c sep output_fasta input_fasta) →
  ∃ text, e = Write output_fasta text.
Proof.
  induction input_fasta as [|f rest IH]; [by intros ?%elem_of_nil|].
  cbn [rewrite_files]. intros [Hin|[recs Hin]]%bind_trace.
  - unfold lift in Hin. by apply elem_of_nil in Hin.
  - apply bind_trace in Hin as [Hin|[[] Hin]].
    + by eapply rewrite_records_events.
    + by apply IH.
Qed.

(** Whatever the order of the dictionary, a run opens and writes the output
    only, and prints. *)
Lemma make_nr_with_events values w input_fasta output_fasta sep e :
  e ∈ trace (make_nr_with values w input_fasta output_fasta sep) →
  e = OpenW output_fasta ∨ (∃ text, e = Write output_fasta text)
  ∨ (∃ line, e = Print line).
Proof.
  unfold make_nr_with.
  intros [Hin|[[] Hin]]%bind_trace; [by apply elem_of_nil in Hin|].
  apply bind_trace in Hin as [Hin|[by_seq Hin]]; [by apply elem_of_nil in Hin|].
  cbv zeta in Hin. case_decide.
  - apply bind_trace in Hin as [Hin|[w' Hin]].
    + unfold open_w in Hin. case_decide; [by apply elem_of_nil in Hin|].
      apply list_elem_of_singleton in Hin. by left.
    + apply bind_trace in Hin as [Hin|[[] Hin]].
      * right. left. by eapply rewrite_files_events.
      * apply list_elem_of_singleton in Hin. right. right. by eexists.
  - by apply elem_of_nil in Hin.
Qed.

(** ** The whole run *)

Lemma open_w_ok w path :
  path ∉ unwritable w →
  open_w w path =
    ([OpenW path],
     Ok (World (import_parser w) (<[path := []]> (files w)) (unwritable w) (cwd w))).
Proof. intros Hw. unfold open_w. by rewrite decide_False. Qed.

Lemma open_w_refused w path :
  path ∈ unwritable w → open_w w path = ([], Raise (OSError path)).
Proof. intros Hw. unfold open_w. by rewrite decide_True. Qed.





(** * The claims *)

(** ** The scenarios of the specification *)

Example scenario_run :
  make_nr w_scenario ["A.fasta"] "out.fasta" ";" =
    ([OpenW "out.fasta";
      Write "out.fasta" (">r1;r2 representing 2 records" +:+ nl +:+ "ACGT" +:+ nl);
      Write "out.fasta" (">r3" +:+ nl +:+ "GGCC" +:+ nl);
      Print "1 unique entries; removed 1 duplicates leaving 1 representative records"],
     Ok tt).
Proof. vm_compute. reflexivity. Qed.

Example two_files_run :
  make_nr w_two_files ["A.fasta"; "B.fasta"] "out.fasta" ";" =
    ([OpenW "out.fasta";
      Write "out.fasta" (">a;b representing 2 records" +:+ nl +:+ "ACGT" +:+ nl);
      Print "0 unique entries; removed 1 duplicates leaving 1 representative records"],
     Ok tt).
Proof. vm_compute. reflexivity. Qed.

(** ** C1: the run without duplicates *)

(** C1.  The claim: when no two records share a sequence, the run links the
    output path to the input file's absolute path and prints the number of
    unique entries.  The code hands the list of file names, not a file
    name, to [os.path.abspath]: on one file with two distinct sequences the
    suppression set is empty and the run, started as the module starts it,
    ends with a [TypeError] before anything is linked or printed; and no
    run at all, on any input, creates a link. *)
Theorem no_duplicates_run_raises :
  (index_files w_unique [] ["A.fasta"]
     = Ok [("ACGT", ["r1"]); ("GGCC", ["r3"])]
   ∧ duplicates (classify [("ACGT", ["r1"]); ("GGCC", ["r3"])]) = ∅
   ∧ main w_unique ["make_nr.py"; "-o"; "out.fasta"; "A.fasta"] ["A.fasta"]
          "out.fasta" ";"
     = ([], Raise TypeError))
  ∧ ∀ w input_fasta output_fasta sep src dst,
      Symlink src dst ∉ trace (make_nr w input_fasta output_fasta sep).
Proof.
  split; [split; [|split]; vm_compute; reflexivity|].
  intros w input_fasta output_fasta sep src dst Hin.
  by apply make_nr_with_events in Hin as [?|[[? ?]|[? ?]]].
Qed.

(** ** C2: the missing parser *)

(** C2.  The claim: when the parser cannot be imported, the run exits with
    the message "Missing Biopython".  The handler names [KeyError], so the
    [ImportError] of a missing module passes it: whatever the files and the
    arguments, the run ends with that [ImportError], and the exit with the
    message happens only for a [KeyError]. *)
Theorem import_error_propagates files unwritable cwd input_fasta output_fasta sep :
  make_nr (World (Raise ImportError) files unwritable cwd)
          input_fasta output_fasta sep
    = ([], Raise ImportError)
  ∧ make_nr (World (Raise KeyError) files unwritable cwd)
            input_fasta output_fasta sep
    = ([], Raise (SystemExit 1 "Missing Biopython")).
Proof. split; reflexivity. Qed.

(** ** C3: the count of unique entries *)

Lemma classify_from_count c clusters :
  Forall (λ cluster, cluster ≠ []) clusters →
  unique (classify_from c clusters)
    + sum_list_with length (filter (λ cluster, 1 < length cluster) clusters)
  = unique c + length (concat clusters).
Proof.
  intros Hne. revert c.
  induction Hne as [|cluster clusters Hcl _ IH]; intros c.
  - simpl. lia.
  - rewrite classify_from_cons, filter_cons. simpl concat. rewrite length_app.
    destruct cluster as [|c0 [|c1 rest]]; [done|..].
    + rewrite decide_False by (simpl; lia). rewrite IH. simpl. lia.
    + rewrite decide_True by (simpl; lia).
      rewrite classify_step_duplicate. cbn [sum_list_with].
      specialize (IH (Classes (unique c)
        (<[c0 := c0 :: c1 :: rest]> (representatives c))
        (duplicates c ∪ list_to_set (c1 :: rest)))).
      cbn [unique] in IH. lia.
Qed.

(** C3.  The claim: after the classifier has run, the unique count plus
    the sizes of the clusters is the number of records.  The clusters the
    classifier keeps are the values of the representative map, whose key is
    the first identifier of a cluster: with the identifier [a] first on the
    records of two duplicated sequences the second cluster replaces the
    first, and the count is 0 + 2 for 4 records.  The run ends well on that
    input, though the module says that duplicate identifiers give an
    error. *)
Theorem cluster_sizes_miss_records :
  let by_seq := [("ACGT", ["a"; "b"]); ("GGGG", ["a"; "c"])] in
  stream w_two_heads ["A.fasta"]
    = Ok [("a", "ACGT"); ("b", "ACGT"); ("a", "GGGG"); ("c", "GGGG")]
  ∧ index_files w_two_heads [] ["A.fasta"] = Ok by_seq
  ∧ classify by_seq = Classes 0 {[ "a" := ["a"; "c"] ]} {[ "b"; "c" ]}
  ∧ unique (classify by_seq) + cluster_sizes (classify by_seq) = 2
  ∧ outcome (make_nr w_two_heads ["A.fasta"] "out.fasta" ";") = Ok tt.
Proof. repeat split; vm_compute; reflexivity. Qed.

(** ** C4: representative keys and suppressed identifiers *)

Lemma elem_of_concat (clusters : list (list string)) x :
  x ∈ concat clusters ↔ ∃ cluster, x ∈ cluster ∧ cluster ∈ clusters.
Proof.
  induction clusters as [|cl clusters IH]; simpl.
  - split; [by intros ?%elem_of_nil|by intros (? & _ & ?%elem_of_nil)].
  - rewrite elem_of_app, IH. split.
    + intros [?|(cluster & ? & ?)]; [exists cl|exists cluster];
        (split; [done|]); [by left|by right].
    + intros (cluster & ? & [->|?]%elem_of_cons); [by left|right; eauto].
Qed.

(** When no identifier occurs twice in the clusters, an identifier found
    in two clusters is found in one and the same cluster. *)
Lemma NoDup_concat_same (clusters : list (list string)) cl1 cl2 x :
  NoDup (concat clusters) → cl1 ∈ clusters → cl2 ∈ clusters →
  x ∈ cl1 → x ∈ cl2 → cl1 = cl2.
Proof.
  induction clusters as [|cl clusters IH]; simpl.
  - by intros _ ?%elem_of_nil.
  - intros (Hcl & Hdisj & Hrest)%NoDup_app.
    intros [->|H1]%elem_of_cons [->|H2]%elem_of_cons Hx1 Hx2.
    + done.
    + destruct (Hdisj x Hx1). apply elem_of_concat. eauto.
    + destruct (Hdisj x Hx2). apply elem_of_concat. eauto.
    + by apply IH.
Qed.

Lemma NoDup_concat_elem (clusters : list (list string)) cl :
  NoDup (concat clusters) → cl ∈ clusters → NoDup cl.
Proof.
  induction clusters as [|cl' clusters IH]; simpl.
  - by intros _ ?%elem_of_nil.
  - intros (Hcl & _ & Hrest)%NoDup_app [->|Hin]%elem_of_cons; [done|by apply IH].
Qed.

(** C4.  The claim: the keys of the representative map are disjoint from
    the suppression set.  With the identifier [a] on two records of one
    sequence, [a] is both a key of the representative map and a member of
    the suppression set, and the run ends well, though the module says
    that duplicate identifiers give an error. *)
Theorem representative_also_suppressed :
  index_files w_repeated_id [] ["A.fasta"] = Ok [("AA", ["a"; "a"])]
  ∧ outcome (make_nr w_repeated_id ["A.fasta"] "out.fasta" ";") = Ok tt
  ∧ ¬ (dom (representatives (classify [("AA", ["a"; "a"])]))
       ## duplicates (classify [("AA", ["a"; "a"])])).
Proof.
  split; [vm_compute; reflexivity|]. split; [vm_compute; reflexivity|].
  intros Hdisj. apply (Hdisj "a").
  - apply elem_of_dom. exists ["a"; "a"]. vm_compute. reflexivity.
  - apply (bool_decide_unpack _). vm_compute. exact I.
Qed.

(** X13.  When every file opens, every title has a first word and the
    identifiers of the records are pairwise distinct, the first pass
    succeeds and the keys of the representative map are disjoint from the
    suppression set. *)
Theorem representatives_disjoint_duplicates w input_fasta recs ps :
  stream w input_fasta = Ok recs → entries recs = Ok ps → NoDup ps.*1 →
  ∃ by_seq, index_files w [] input_fasta = Ok by_seq ∧
    dom (representatives (classify by_seq)) ## duplicates (classify by_seq).
Proof.
  intros Hs He Hnd. exists (index_of [] ps).
  split; [by apply (index_files_ok w [] input_fasta recs ps)|].
  assert (NoDup (concat (index_of [] ps).*2)) as Hcat.
  { by rewrite (index_of_concat ps []). }
  intros idn [cluster Hrep]%elem_of_dom Hdup.
  apply classify_from_representatives in Hrep
    as [Hrep|(rest & -> & Hrest & Hin1)]; [done|].
  apply classify_from_duplicates in Hdup
    as [Hdup|(c0 & rest' & Hin2 & Hrest' & Hx)]; [by apply not_elem_of_empty in Hdup|].
  assert (idn :: rest = c0 :: rest') as [= <- <-].
  { eapply NoDup_concat_same; [done..|by left|by right]. }
  apply (NoDup_concat_elem _ _ Hcat), NoDup_cons in Hin1 as [Hnot _]. done.
Qed.

Lemma representatives_disjoint_duplicates_witness :
  ∃ by_seq, index_files w_scenario [] ["A.fasta"] = Ok by_seq ∧
    dom (representatives (classify by_seq)) ## duplicates (classify by_seq).
Proof.
  apply (representatives_disjoint_duplicates w_scenario ["A.fasta"]
    [("r1", "ACGT"); ("r2 x", "ACGT"); ("r3", "GGCC")]
    [("r1", "ACGT"); ("r2", "ACGT"); ("r3", "GGCC")]).
  - vm_compute. reflexivity.
  - vm_compute. reflexivity.
  - apply (bool_decide_unpack _). vm_compute. exact I.
Defined.

(** ** C9: the two maps are empty together *)

(** C9.  Whatever the index, the representative map is empty exactly when
    the suppression set is: every cluster with more than one member gives
    the map a key, its first member, and the set all its other members. *)
Theorem representatives_empty_iff_duplicates_empty (by_seq : index) :
  (representatives (classify by_seq) = ∅ ↔ duplicates (classify by_seq) = ∅)
  ∧ ∀ c0 rest, (c0 :: rest) ∈ by_seq.*2 → rest ≠ [] →
      is_Some (representatives (classify by_seq) !! c0)
      ∧ ∀ x, x ∈ rest → x ∈ duplicates (classify by_seq).
Proof.
  split; [by apply classify_from_empty_iff|].
  intros c0 rest Hin Hrest. split.
  - apply classify_from_representatives_dom. right. eauto.
  - intros x Hx. apply classify_from_duplicates. right. eauto.
Qed.

(** ** C7: the clusters of the index *)

Lemma ids_with_app k ps1 ps2 :
  ids_with k (ps1 ++ ps2) = ids_with k ps1 ++ ids_with k ps2.
Proof. unfold ids_with. by rewrite filter_app, fmap_app. Qed.

(** The index built from nothing holds, for each key, the identifiers of
    the entries with that key, in order, and no key without entries. *)
Lemma get_index k ps :
  get (index_of [] ps) k =
    match ids_with k ps with
    | [] => None
    | ids => Some ids
    end.
Proof. by rewrite get_index_of. Qed.

(** The identifier of the entry at position [n] sits in the list of its key
    after the identifiers of the earlier entries with that key. *)
Lemma ids_with_lookup ps n idn k :
  ps !! n = Some (idn, k) →
  ids_with k ps !! length (ids_with k (take n ps)) = Some idn.
Proof.
  intros Hn.
  assert (ids_with k ps = ids_with k (take n ps) ++ idn :: ids_with k (drop (S n) ps))
    as ->.
  { rewrite <-(take_drop_middle ps n (idn, k) Hn) at 1.
    rewrite ids_with_app, ids_with_cons. by rewrite decide_True. }
  by rewrite lookup_app_r, Nat.sub_diag by lia.
Qed.

Lemma ids_with_elem_of ps n idn k :
  ps !! n = Some (idn, k) → idn ∈ ids_with k ps.
Proof. intros H%ids_with_lookup. by eapply list_elem_of_lookup_2. Qed.

(** C7.  When the first pass succeeds, the keys of the index are pairwise
    distinct, the cluster of a key is the list of the identifiers of the
    records whose upper-cased sequence is that key, in the order of the
    stream (files in argument order, records in file order), and two
    records whose sequences are equal after upper-casing have their
    identifiers, whatever follows them in the titles, in one cluster, each
    at the place given by the number of earlier records of that sequence. *)
Theorem same_sequence_same_cluster w input_fasta by_seq :
  index_files w [] input_fasta = Ok by_seq →
  ∃ recs ps, stream w input_fasta = Ok recs ∧ entries recs = Ok ps ∧
    NoDup by_seq.*1 ∧
    (∀ k cluster, get by_seq k = Some cluster → cluster = ids_with k ps) ∧
    (∀ n1 n2 title1 seq1 title2 seq2,
       recs !! n1 = Some (title1, seq1) → recs !! n2 = Some (title2, seq2) →
       Py.upper seq1 = Py.upper seq2 →
       ∃ idn1 idn2 cluster,
         first_word title1 = Ok idn1 ∧ first_word title2 = Ok idn2 ∧
         get by_seq (Py.upper seq1) = Some cluster ∧
         get by_seq (Py.upper seq2) = Some cluster ∧
         cluster !! length (ids_with (Py.upper seq1) (take n1 ps)) = Some idn1 ∧
         cluster !! length (ids_with (Py.upper seq2) (take n2 ps)) = Some idn2).
Proof.
  intros (recs & ps & Hs & He & ->)%index_files_inv.
  exists recs, ps. split; [done|]. split; [done|].
  split; [apply index_of_NoDup, NoDup_nil_2|]. split.
  - intros k cluster. rewrite get_index.
    destruct (ids_with k ps); [done|by intros [= <-]].
  - intros n1 n2 title1 seq1 title2 seq2 H1 H2 Hseq.
    destruct (entries_lookup recs ps n1 title1 seq1 He H1) as (idn1 & Hi1 & Hp1).
    destruct (entries_lookup recs ps n2 title2 seq2 He H2) as (idn2 & Hi2 & Hp2).
    exists idn1, idn2, (ids_with (Py.upper seq1) ps).
    split; [done|]. split; [done|].
    assert (get (index_of [] ps) (Py.upper seq1)
            = Some (ids_with (Py.upper seq1) ps)) as Hget.
    { rewrite get_index. pose proof (ids_with_elem_of _ _ _ _ Hp1) as Hin.
      destruct (ids_with (Py.upper seq1) ps); [by apply elem_of_nil in Hin|done]. }
    split; [done|]. split; [by rewrite <-Hseq|].
    split; [by apply ids_with_lookup|].
    rewrite Hseq. by apply ids_with_lookup.
Qed.

Lemma same_sequence_same_cluster_witness :
  ∃ recs ps, stream w_two_files ["A.fasta"; "B.fasta"] = Ok recs ∧
    entries recs = Ok ps ∧
    NoDup [("ACGT", ["a"; "b"])].*1 ∧
    (∀ k cluster, get [("ACGT", ["a"; "b"])] k = Some cluster →
       cluster = ids_with k ps) ∧
    (∀ n1 n2 title1 seq1 title2 seq2,
       recs !! n1 = Some (title1, seq1) → recs !! n2 = Some (title2, seq2) →
       Py.upper seq1 = Py.upper seq2 →
       ∃ idn1 idn2 cluster,
         first_word title1 = Ok idn1 ∧ first_word title2 = Ok idn2 ∧
         get [("ACGT", ["a"; "b"])] (Py.upper seq1) = Some cluster ∧
         get [("ACGT", ["a"; "b"])] (Py.upper seq2) = Some cluster ∧
         cluster !! length (ids_with (Py.upper seq1) (take n1 ps)) = Some idn1 ∧
         cluster !! length (ids_with (Py.upper seq2) (take n2 ps)) = Some idn2).
Proof.
  apply (same_sequence_same_cluster w_two_files ["A.fasta"; "B.fasta"]).
  vm_compute. reflexivity.
Defined.

(** Case is ignored and only the first word of a title counts. *)
Example case_and_title_suffix :
  index_records [] [("read1 description text", "ACGT"); ("read2", "acgt")]
    = Ok [("ACGT", ["read1"; "read2"])].
Proof. reflexivity. Qed.

(** ** C5: the combined record *)




(** C5.  The claim: a record whose identifier is a key of the
    representative map is written as the combined record, with the
    sequence of the first occurrence of the cluster and at its place.  The
    third record here has the identifier [a], a key of the representative
    map with the cluster [a; b], and the run writes a combined record for
    it too, with the sequence [GG], at the third place, while the first
    occurrence of that cluster is the first record, with the sequence
    [AA]; and the run ends well, though the module says that duplicate
    identifiers give an error. *)
Theorem representative_not_first_occurrence :
  let recs := [("a", "AA"); ("b", "AA"); ("a", "GG")] in
  let by_seq := [("AA", ["a"; "b"]); ("GG", ["a"])] in
  stream w_shared_id ["A.fasta"] = Ok recs ∧
  index_files w_shared_id [] ["A.fasta"] = Ok by_seq ∧
  recs !! 2 = Some ("a", "GG") ∧ first_word "a" = Ok "a" ∧
  representatives (classify by_seq) !! "a" = Some ["a"; "b"] ∧
  make_nr w_shared_id ["A.fasta"] "out.fasta" ";" =
    ([OpenW "out.fasta";
      Write "out.fasta" (">a;b representing 2 records" +:+ nl +:+ "AA" +:+ nl);
      Write "out.fasta" (">a;b representing 2 records" +:+ nl +:+ "GG" +:+ nl);
      Print "1 unique entries; removed 1 duplicates leaving 1 representative records"],
     Ok tt) ∧
  ¬ first_occurrence_of ["a"; "b"] by_seq recs 2.
Proof.
  do 5 (split; [vm_compute; reflexivity|]). split; [vm_compute; reflexivity|].
  intros (title & seq & [= <- <-] & Hcl & _). by vm_compute in Hcl.
Qed.



(** ** C6: suppressed records and unchanged records *)

(** C6.  The claim: a record whose identifier is in the suppression set
    leaves nothing in the output.  With the identifier [a] on two records
    of one sequence, [a] is in the suppression set and both records are
    written, since [a] is a representative key too; and the run ends well,
    though the module says that duplicate identifiers give an error. *)
Theorem suppressed_identifier_written :
  stream w_repeated_id ["A.fasta"] = Ok [("a", "AA"); ("a", "AA")] ∧
  index_files w_repeated_id [] ["A.fasta"] = Ok [("AA", ["a"; "a"])] ∧
  "a" ∈ duplicates (classify [("AA", ["a"; "a"])]) ∧
  make_nr w_repeated_id ["A.fasta"] "out.fasta" ";" =
    ([OpenW "out.fasta";
      Write "out.fasta" (">a;a representing 2 records" +:+ nl +:+ "AA" +:+ nl);
      Write "out.fasta" (">a;a representing 2 records" +:+ nl +:+ "AA" +:+ nl);
      Print "0 unique entries; removed 1 duplicates leaving 1 representative records"],
     Ok tt).
Proof.
  split; [vm_compute; reflexivity|]. split; [vm_compute; reflexivity|].
  split; [|vm_compute; reflexivity].
  apply (bool_decide_unpack _). vm_compute. exact I.
Qed.



(** ** C10: the decision taken from the identifier *)

(** C10.  The claim: the decision for a record depends on its identifier
    only, and a record whose identifier is in the suppression set is
    dropped even if its sequence is unique.  Here the identifier [b] is in
    the suppression set and the sequence [GG] is on one record only, that
    of [b], which is written all the same, as a combined record, since [b]
    is a representative key too: four records are written for three
    sequences; and the run ends well, though the module says that
    duplicate identifiers give an error. *)
Theorem suppressed_unique_sequence_written :
  let by_seq := [("AA", ["a"; "b"]); ("CC", ["b"; "c"]); ("GG", ["b"])] in
  index_files w_key_and_suppressed [] ["A.fasta"] = Ok by_seq ∧
  "b" ∈ duplicates (classify by_seq) ∧
  get by_seq "GG" = Some ["b"] ∧
  make_nr w_key_and_suppressed ["A.fasta"] "out.fasta" ";" =
    ([OpenW "out.fasta";
      Write "out.fasta" (">a;b representing 2 records" +:+ nl +:+ "AA" +:+ nl);
      Write "out.fasta" (">b;c representing 2 records" +:+ nl +:+ "AA" +:+ nl);
      Write "out.fasta" (">b;c representing 2 records" +:+ nl +:+ "CC" +:+ nl);
      Write "out.fasta" (">b;c representing 2 records" +:+ nl +:+ "GG" +:+ nl);
      Print "1 unique entries; removed 2 duplicates leaving 2 representative records"],
     Ok tt).
Proof.
  split; [vm_compute; reflexivity|].
  split; [apply (bool_decide_unpack _); vm_compute; exact I|].
  split; vm_compute; reflexivity.
Qed.

(** A suppressed identifier that is no representative key does lose a
    record whose sequence is on that record only. *)
Example unique_sequence_dropped :
  make_nr (World (Ok tt) {[ "A.fasta" := [("a", "AA"); ("b", "AA"); ("b", "GG")] ]} ∅ "/data")
          ["A.fasta"] "out.fasta" ";" =
    ([OpenW "out.fasta";
      Write "out.fasta" (">a;b representing 2 records" +:+ nl +:+ "AA" +:+ nl);
      Print "1 unique entries; removed 1 duplicates leaving 1 representative records"],
     Ok tt).
Proof. vm_compute. reflexivity. Qed.

(** X17.  The second pass writes, for the records of the stream in order,
    what the decision taken from the identifier of each record gives for
    it: a representative key gives the combined record, so that a stream
    of records that all have one identifier, a representative key, gives
    one combined record each, with the sequence of each; an identifier of
    the suppression set that is no representative key gives nothing. *)
Theorem rewrite_decided_by_identifier w c sep output_fasta input_fasta recs ps :
  stream w input_fasta = Ok recs → entries recs = Ok ps →
  rewrite_files w c sep output_fasta input_fasta =
    (Write output_fasta
       <$> concat (zip_with (λ p rec, perform sep (decision c p.1) rec) ps recs),
     Ok tt)
  ∧ (∀ idn cluster, representatives c !! idn = Some cluster →
       decision c idn = Combine cluster ∧
       (Forall (λ p, p.1 = idn) ps →
        rewrite_files w c sep output_fasta input_fasta =
          ((λ rec, Write output_fasta
                     (fasta_entry (combined_title sep cluster) rec.2)) <$> recs,
           Ok tt)))
  ∧ (∀ idn, representatives c !! idn = None → idn ∈ duplicates c →
       decision c idn = Skip).
Proof.
  intros Hs He.
  assert (rewrite_files w c sep output_fasta input_fasta =
    (Write output_fasta
       <$> concat (zip_with (λ p rec, perform sep (decision c p.1) rec) ps recs),
     Ok tt)) as Hrun.
  { rewrite (rewrite_files_ok c sep output_fasta w input_fasta recs ps Hs He).
    by rewrite (replay_decision c sep output_fasta recs ps He). }
  split; [done|]. split.
  - intros idn cluster Hrep.
    assert (decision c idn = Combine cluster) as Hdec.
    { unfold decision. by rewrite Hrep. }
    split; [done|]. intros Hall. rewrite Hrun. f_equal.
    clear Hrun Hs. revert ps He Hall.
    induction recs as [|[title seq] recs IH]; intros ps He Hall.
    + injection He as <-. done.
    + cbn [entries] in He.
      destruct (first_word title) as [idn'|]; simpl in He; [|done].
      destruct (entries recs) as [more|]; simpl in He; [|done].
      injection He as <-. apply Forall_cons in Hall as [Hidn Hall].
      simpl in Hidn. subst idn'. cbn [zip_with concat fst].
      rewrite Hdec, fmap_app, (IH more eq_refl Hall). done.
  - intros idn Hrep Hdup. unfold decision.
    by rewrite Hrep, decide_True.
Qed.

Lemma rewrite_decided_by_identifier_witness :
  rewrite_files w_scenario
    (classify [("ACGT", ["r1"; "r2"]); ("GGCC", ["r3"])])
    ";" "out.fasta" ["A.fasta"] =
    (Write "out.fasta"
       <$> concat (zip_with
             (λ p rec, perform ";"
                (decision (classify [("ACGT", ["r1"; "r2"]); ("GGCC", ["r3"])]) p.1)
                rec)
             [("r1", "ACGT"); ("r2", "ACGT"); ("r3", "GGCC")]
             [("r1", "ACGT"); ("r2 x", "ACGT"); ("r3", "GGCC")]),
     Ok tt).
Proof.
  apply (rewrite_decided_by_identifier w_scenario
    (classify [("ACGT", ["r1"; "r2"]); ("GGCC", ["r3"])])
    ";" "out.fasta" ["A.fasta"]
    [("r1", "ACGT"); ("r2 x", "ACGT"); ("r3", "GGCC")]
    [("r1", "ACGT"); ("r2", "ACGT"); ("r3", "GGCC")]).
  - vm_compute. reflexivity.
  - vm_compute. reflexivity.
Defined.

(** ** C8: two runs on the same input *)

(** C8.  The claim: two runs on the same input files, in the same order and
    with the same separator, give the same output.  The classifier goes
    through [by_seq.values()] in the order the dictionary gives, which the
    language fixes from Python 3.7 on only.  With the identifier [a] first
    on the records of two duplicated sequences, the cluster the
    representative map keeps for [a] is the one that comes last: a run
    that meets the clusters in the order of insertion and a run that meets
    them the other way round write different outputs; and both end well,
    though the module says that duplicate identifiers give an error. *)
Theorem dictionary_order_changes_output :
  let in_order := λ by_seq : index, by_seq.*2 in
  let reversed := λ by_seq : index, reverse by_seq.*2 in
  (∀ by_seq, reversed by_seq ≡ₚ in_order by_seq)
  ∧ make_nr_with in_order w_two_heads ["A.fasta"] "out.fasta" ";" =
      ([OpenW "out.fasta";
        Write "out.fasta" (">a;c representing 2 records" +:+ nl +:+ "ACGT" +:+ nl);
        Write "out.fasta" (">a;c representing 2 records" +:+ nl +:+ "GGGG" +:+ nl);
        Print "0 unique entries; removed 2 duplicates leaving 1 representative records"],
       Ok tt)
  ∧ make_nr_with reversed w_two_heads ["A.fasta"] "out.fasta" ";" =
      ([OpenW "out.fasta";
        Write "out.fasta" (">a;b representing 2 records" +:+ nl +:+ "ACGT" +:+ nl);
        Write "out.fasta" (">a;b representing 2 records" +:+ nl +:+ "GGGG" +:+ nl);
        Print "0 unique entries; removed 2 duplicates leaving 1 representative records"],
       Ok tt).
Proof.
  split; [|split; vm_compute; reflexivity].
  intros by_seq. apply reverse_Permutation.
Qed.

(** * Further properties of the program *)

(** ** Errors of the first pass *)

Lemma first_word_raises title e : first_word title = Raise e → e = IndexError.
Proof. unfold first_word. destruct (Py.lstrip title); by intros [= <-]. Qed.


Lemma entries_blank recs title seq :
  (title, seq) ∈ recs → Py.lstrip title = "" → entries recs = Raise IndexError.
Proof.
  intros Hin Hblank. induction recs as [|[t s] recs IH]; [by apply elem_of_nil in Hin|].
  simpl. apply elem_of_cons in Hin as [[= <- <-]|Hin].
  - unfold first_word. by rewrite Hblank.
  - destruct (first_word t) as [idn|e] eqn:Hi; simpl.
    + by rewrite IH.
    + by rewrite (first_word_raises t e Hi).
Qed.

(** When every file opens, the first pass is the fold over the entries of
    the stream, and fails as the entries fail. *)
Lemma index_files_stream w by_seq input_fasta recs :
  stream w input_fasta = Ok recs →
  index_files w by_seq input_fasta = ps ← entries recs; Ok (index_of by_seq ps).
Proof.
  revert by_seq recs. induction input_fasta as [|f rest IH]; intros by_seq recs; simpl.
  - by intros [= <-].
  - destruct (open_fasta w f) as [recs1|]; simpl; [|done].
    destruct (stream w rest) as [recs2|] eqn:Hrest; simpl; [|done].
    intros [= <-]. rewrite index_records_entries, entries_app.
    destruct (entries recs1) as [ps1|]; simpl; [|done].
    rewrite (IH _ recs2 eq_refl).
    destruct (entries recs2) as [ps2|]; simpl; [|done].
    by rewrite index_of_app.
Qed.

Lemma index_files_app w by_seq fs1 fs2 :
  index_files w by_seq (fs1 ++ fs2) =
    by_seq' ← index_files w by_seq fs1; index_files w by_seq' fs2.
Proof.
  revert by_seq. induction fs1 as [|f fs1 IH]; intros by_seq; simpl; [done|].
  destruct (open_fasta w f) as [recs|]; simpl; [|done].
  destruct (index_records by_seq recs) as [by_seq'|]; simpl; [|done].
  apply IH.
Qed.

(** X1.  A record whose title is empty or all white space, anywhere in the
    input, ends the run with an [IndexError] in the first pass: the output
    is not opened and nothing is written or printed. *)
Theorem blank_title_raises w input_fasta output_fasta sep recs title seq :
  import_parser w = Ok tt → stream w input_fasta = Ok recs →
  (title, seq) ∈ recs → Py.lstrip title = "" →
  make_nr w input_fasta output_fasta sep = ([], Raise IndexError).
Proof.
  intros Himp Hs Hin Hblank. unfold make_nr, make_nr_with, load_parser. rewrite Himp.
  rewrite (index_files_stream w [] input_fasta recs Hs).
  by rewrite (entries_blank recs title seq Hin Hblank).
Qed.

Lemma blank_title_raises_witness :
  make_nr (World (Ok tt) {[ "A.fasta" := [("r1", "ACGT"); ("  ", "ACGT")] ]} ∅ "/data")
          ["A.fasta"] "out.fasta" ";"
  = ([], Raise IndexError).
Proof.
  apply (blank_title_raises
    (World (Ok tt) {[ "A.fasta" := [("r1", "ACGT"); ("  ", "ACGT")] ]} ∅ "/data")
    ["A.fasta"] "out.fasta" ";" [("r1", "ACGT"); ("  ", "ACGT")] "  " "ACGT").
  - reflexivity.
  - vm_compute. reflexivity.
  - right. left.
  - reflexivity.
Defined.

(** X2.  When the files before [f] in the argument list open and their
    titles all have a first word, and [f] cannot be opened, the run ends
    with the error of opening [f], whatever comes after [f]; the output is
    not opened and nothing is written or printed. *)
Theorem missing_file_raises w before f after output_fasta sep recs ps :
  import_parser w = Ok tt →
  stream w before = Ok recs → entries recs = Ok ps →
  files w !! f = None →
  make_nr w (before ++ f :: after) output_fasta sep = ([], Raise (OSError f)).
Proof.
  intros Himp Hs He Hf. unfold make_nr, make_nr_with, load_parser. rewrite Himp.
  rewrite index_files_app, (index_files_ok w [] before recs ps Hs He).
  simpl. unfold open_fasta. by rewrite Hf.
Qed.

Lemma missing_file_raises_witness :
  make_nr w_scenario (["A.fasta"] ++ "B.fasta" :: ["A.fasta"]) "out.fasta" ";"
  = ([], Raise (OSError "B.fasta")).
Proof.
  apply (missing_file_raises w_scenario ["A.fasta"] "B.fasta" ["A.fasta"]
    "out.fasta" ";"
    [("r1", "ACGT"); ("r2 x", "ACGT"); ("r3", "GGCC")]
    [("r1", "ACGT"); ("r2", "ACGT"); ("r3", "GGCC")]).
  - reflexivity.
  - vm_compute. reflexivity.
  - vm_compute. reflexivity.
  - vm_compute. reflexivity.
Defined.

(** ** What a run touches *)

(** X3.  Whatever the command line, the program touches no file but the
    output it was given: every effect of a run is opening that path for
    writing, writing to it, or printing. *)
Theorem only_output_touched w argv args output sep e :
  e ∈ trace (main w argv args output sep) →
  e = OpenW output ∨ (∃ text, e = Write output text) ∨ (∃ line, e = Print line).
Proof.
  unfold main. case_decide.
  - intros ->%list_elem_of_singleton. right. right. by eexists.
  - destruct args as [|f args]; [by intros ?%elem_of_nil|].
    apply make_nr_with_events.
Qed.

Lemma only_output_touched_witness :
  OpenW "out.fasta" = OpenW "out.fasta"
  ∨ (∃ text, OpenW "out.fasta" = Write "out.fasta" text)
  ∨ (∃ line, OpenW "out.fasta" = Print line).
Proof.
  apply (only_output_touched w_scenario ["make_nr.py"; "A.fasta"] ["A.fasta"]
           "out.fasta" ";" (OpenW "out.fasta")).
  assert (trace (main w_scenario ["make_nr.py"; "A.fasta"] ["A.fasta"] "out.fasta" ";")
          = [OpenW "out.fasta";
             Write "out.fasta" (">r1;r2 representing 2 records" +:+ nl +:+ "ACGT" +:+ nl);
             Write "out.fasta" (">r3" +:+ nl +:+ "GGCC" +:+ nl);
             Print "1 unique entries; removed 1 duplicates leaving 1 representative records"])
    as -> by (vm_compute; reflexivity).
  left.
Defined.

(** ** The index: what it holds and in which order *)

Lemma index_add_fst by_seq seq idn :
  (index_add by_seq seq idn).*1 =
    if decide (seq ∈ by_seq.*1) then by_seq.*1 else by_seq.*1 ++ [seq].
Proof.
  induction by_seq as [|[k cluster] rest IH]; cbn [index_add].
  - rewrite decide_False; [done|apply not_elem_of_nil].
  - rewrite (fmap_cons fst (k, cluster) rest). cbn [fst].
    destruct (String.eqb_spec k seq) as [->|Hne]; rewrite fmap_cons; cbn [fst].
    + rewrite decide_True; [done|by left].
    + rewrite IH. destruct (decide (seq ∈ rest.*1)) as [Hin|Hin].
      * rewrite decide_True; [done|by right].
      * rewrite decide_False; [done|].
        intros [?|?]%elem_of_cons; [by subst|done].
Qed.

Lemma index_of_fst ps by_seq :
  (index_of by_seq ps).*1 =
    by_seq.*1 ++ filter (λ k, k ∉ by_seq.*1) (first_seen ps.*2).
Proof.
  revert by_seq. induction ps as [|[idn k] ps IH]; intros by_seq.
  - simpl. by rewrite app_nil_r.
  - change (index_of by_seq ((idn, k) :: ps))
      with (index_of (index_add by_seq k idn) ps).
    rewrite IH, index_add_fst, (fmap_cons snd (idn, k) ps).
    cbn [snd first_seen]. rewrite filter_cons. destruct (decide (k ∈ by_seq.*1)) as [Hin|Hin].
    + rewrite decide_False by (by intros ?). f_equal.
      rewrite list_filter_filter. apply list_filter_iff.
      intros k'. split; [|by intros [? _]].
      intros Hk'. split; [done|]. by intros ->.
    + rewrite decide_True by done. rewrite <-app_assoc. simpl. do 2 f_equal.
      rewrite list_filter_filter. apply list_filter_iff.
      intros k'. rewrite elem_of_app, list_elem_of_singleton. tauto.
Qed.

(** X4.  When the first pass succeeds, no cluster of the index is empty,
    the clusters together hold the identifiers of the records, each as
    often as it occurs on a record, and the keys of the index are the
    upper-cased sequences of the records in the order of their first
    occurrences. *)
Theorem index_holds_the_stream w input_fasta by_seq :
  index_files w [] input_fasta = Ok by_seq →
  ∃ recs ps, stream w input_fasta = Ok recs ∧ entries recs = Ok ps ∧
    Forall (λ cluster, cluster ≠ []) by_seq.*2 ∧
    concat by_seq.*2 ≡ₚ ps.*1 ∧
    by_seq.*1 = first_seen ps.*2.
Proof.
  intros (recs & ps & Hs & He & ->)%index_files_inv.
  exists recs, ps. split; [done|]. split; [done|].
  split; [by apply index_of_nonempty|]. split.
  - by rewrite (index_of_concat ps []).
  - rewrite index_of_fst. simpl.
    induction (first_seen ps.*2) as [|k ks IH]; [done|].
    rewrite filter_cons_True by apply not_elem_of_nil. by rewrite IH.
Qed.

Lemma index_holds_the_stream_witness :
  ∃ recs ps, stream w_key_and_suppressed ["A.fasta"] = Ok recs ∧
    entries recs = Ok ps ∧
    Forall (λ cluster, cluster ≠ [])
      [("AA", ["a"; "b"]); ("CC", ["b"; "c"]); ("GG", ["b"])].*2 ∧
    concat [("AA", ["a"; "b"]); ("CC", ["b"; "c"]); ("GG", ["b"])].*2 ≡ₚ ps.*1 ∧
    [("AA", ["a"; "b"]); ("CC", ["b"; "c"]); ("GG", ["b"])].*1 = first_seen ps.*2.
Proof.
  apply (index_holds_the_stream w_key_and_suppressed ["A.fasta"]).
  vm_compute. reflexivity.
Defined.

(** X5.  Adding a record to the index appends its identifier to the cluster
    of its sequence, which starts empty for a new sequence, leaves the
    cluster of every other sequence as it was, and puts a new sequence
    after the keys already there. *)
Theorem index_add_lookup by_seq seq idn :
  get (index_add by_seq seq idn) seq = Some (default [] (get by_seq seq) ++ [idn])
  ∧ (∀ k, k ≠ seq → get (index_add by_seq seq idn) k = get by_seq k)
  ∧ (index_add by_seq seq idn).*1
    = if decide (seq ∈ by_seq.*1) then by_seq.*1 else by_seq.*1 ++ [seq].
Proof.
  split; [|split].
  - by rewrite get_index_add, decide_True.
  - intros k Hk. by rewrite get_index_add, decide_False.
  - apply index_add_fst.
Qed.

(** ** The classifier and the order of the clusters *)

Lemma heads_cons cluster clusters :
  heads (cluster :: clusters) =
    match cluster with
    | c0 :: _ :: _ => c0 :: heads clusters
    | _ => heads clusters
    end.
Proof. by destruct cluster as [|c0 [|c1 rest]]. Qed.

(** Two steps of the loop can be taken in either order, unless both
    clusters have several members and the same first member. *)
Lemma classify_step_swap c x y :
  NoDup (heads [x; y]) →
  classify_step (classify_step c x) y = classify_step (classify_step c y) x.
Proof.
  destruct x as [|x0 [|x1 xs]], y as [|y0 [|y1 ys]]; try done.
  rewrite !heads_cons. intros [Hne _]%NoDup_cons.
  rewrite !classify_step_duplicate. cbn [unique representatives duplicates].
  f_equal.
  - apply insert_insert_ne. intros ->. apply Hne. by left.
  - rewrite <-!(assoc_L (∪)). f_equal. apply (comm_L (∪)).
Qed.

Lemma classify_from_Permutation c clusters1 clusters2 :
  clusters1 ≡ₚ clusters2 → NoDup (heads clusters1) →
  classify_from c clusters1 = classify_from c clusters2.
Proof.
  intros Hperm. revert c.
  induction Hperm as [|x l l' Hperm IH|x y l|l l' l'' H1 IH1 H2 IH2]; intros c Hnd.
  - done.
  - rewrite !classify_from_cons. apply IH.
    rewrite heads_cons in Hnd.
    destruct x as [|x0 [|x1 xs]]; [done..|by apply NoDup_cons in Hnd as [_ ?]].
  - rewrite !classify_from_cons. f_equal. apply classify_step_swap.
    rewrite !heads_cons in Hnd. rewrite !heads_cons.
    destruct y as [|y0 [|y1 ys]], x as [|x0 [|x1 xs]];
      try apply NoDup_nil_2; try apply NoDup_singleton.
    apply NoDup_cons in Hnd as [Hy Hnd]. apply NoDup_cons in Hnd as [Hx _].
    apply NoDup_cons. split; [|apply NoDup_singleton].
    intros ->%list_elem_of_singleton. apply Hy. by left.
  - rewrite IH1 by done. apply IH2.
    unfold heads in *. by rewrite <-H1.
Qed.

(** X6.  The result of the classifier does not depend on the order in which
    the dictionary yields the clusters, as far as the unique count and the
    suppression set go; the representative map does not depend on it
    either when no two clusters of several members begin with the same
    identifier. *)
Theorem classify_order_independent c clusters1 clusters2 :
  clusters1 ≡ₚ clusters2 →
  unique (classify_from c clusters1) = unique (classify_from c clusters2)
  ∧ duplicates (classify_from c clusters1) = duplicates (classify_from c clusters2)
  ∧ (NoDup (heads clusters1) →
     classify_from c clusters1 = classify_from c clusters2).
Proof.
  intros Hperm. split; [|split].
  - rewrite !classify_from_unique. by rewrite Hperm.
  - apply set_eq. intros x. rewrite !classify_from_duplicates.
    split; (intros [?|(c0 & rest & Hin & ? & ?)]; [by left|right]);
      exists c0, rest; (split; [|done]); [by rewrite <-Hperm|by rewrite Hperm].
  - by apply classify_from_Permutation.
Qed.

Lemma classify_order_independent_witness :
  unique (classify_from (Classes 0 ∅ ∅) [["a"; "b"]; ["c"]; ["d"; "e"]])
  = unique (classify_from (Classes 0 ∅ ∅) [["d"; "e"]; ["a"; "b"]; ["c"]])
  ∧ duplicates (classify_from (Classes 0 ∅ ∅) [["a"; "b"]; ["c"]; ["d"; "e"]])
    = duplicates (classify_from (Classes 0 ∅ ∅) [["d"; "e"]; ["a"; "b"]; ["c"]])
  ∧ (NoDup (heads [["a"; "b"]; ["c"]; ["d"; "e"]]) →
     classify_from (Classes 0 ∅ ∅) [["a"; "b"]; ["c"]; ["d"; "e"]]
     = classify_from (Classes 0 ∅ ∅) [["d"; "e"]; ["a"; "b"]; ["c"]]).
Proof.
  apply (classify_order_independent (Classes 0 ∅ ∅)
           [["a"; "b"]; ["c"]; ["d"; "e"]] [["d"; "e"]; ["a"; "b"]; ["c"]]).
  change [["d"; "e"]; ["a"; "b"]; ["c"]]
    with ([["d"; "e"]] ++ [["a"; "b"]; ["c"]]).
  change [["a"; "b"]; ["c"]; ["d"; "e"]]
    with ([["a"; "b"]; ["c"]] ++ [["d"; "e"]]).
  apply Permutation_app_comm.
Defined.

(** With the same first member on two clusters of several members, the
    cluster the dictionary yields last is the one the map keeps. *)
Example classify_order_matters :
  representatives (classify_from (Classes 0 ∅ ∅) [["a"; "b"]; ["a"; "c"]])
    = {[ "a" := ["a"; "c"] ]}
  ∧ representatives (classify_from (Classes 0 ∅ ∅) [["a"; "c"]; ["a"; "b"]])
    = {[ "a" := ["a"; "b"] ]}.
Proof. split; vm_compute; reflexivity. Qed.

(** ** The output when the identifiers are distinct *)






Section distinct_identifiers.
Context (recs : list record) (ps : list (string * string)).
Hypothesis Hnd : NoDup ps.*1.



End distinct_identifiers.



(** ** The numbers of the summary *)

Lemma heads_elem_of clusters h :
  h ∈ heads clusters → ∃ rest, rest ≠ [] ∧ (h :: rest) ∈ clusters.
Proof.
  induction clusters as [|cluster clusters IH]; [by intros ?%elem_of_nil|].
  rewrite heads_cons. destruct cluster as [|c0 [|c1 rest]].
  - intros (rest & ? & ?)%IH. exists rest. split; [done|by right].
  - intros (rest & ? & ?)%IH. exists rest. split; [done|by right].
  - intros [->|(rest' & ? & ?)%IH]%elem_of_cons.
    + exists (c1 :: rest). split; [done|by left].
    + exists rest'. split; [done|by right].
Qed.

Lemma heads_NoDup clusters : NoDup (concat clusters) → NoDup (heads clusters).
Proof.
  induction clusters as [|cluster clusters IH]; [intros _; apply NoDup_nil_2|].
  cbn [concat]. intros (Hcl & Hdisj & Hrest)%NoDup_app. rewrite heads_cons.
  destruct cluster as [|c0 [|c1 rest]]; [by apply IH..|].
  apply NoDup_cons. split; [|by apply IH].
  intros (rest' & _ & Hin)%heads_elem_of.
  apply (Hdisj c0); [by left|]. apply elem_of_concat.
  exists (c0 :: rest'). split; [by left|done].
Qed.

Lemma classify_from_size_representatives c clusters :
  NoDup (heads clusters) →
  (∀ h, h ∈ heads clusters → representatives c !! h = None) →
  size (representatives (classify_from c clusters))
  = size (representatives c) + length (heads clusters).
Proof.
  revert c. induction clusters as [|cluster clusters IH]; intros c Hnd Hfresh.
  - simpl. lia.
  - rewrite classify_from_cons. rewrite heads_cons in Hnd, Hfresh.
    rewrite heads_cons. destruct cluster as [|c0 [|c1 rest]];
      [by rewrite IH..|].
    apply NoDup_cons in Hnd as [Hc0 Hnd].
    rewrite IH; [|done|].
    + rewrite classify_step_duplicate. cbn [representatives length].
      rewrite map_size_insert_None by (apply Hfresh; by left). lia.
    + intros h Hh. rewrite classify_step_duplicate. cbn [representatives].
      rewrite lookup_insert_ne by (by intros ->). apply Hfresh. by right.
Qed.

Lemma classify_from_unique_heads c clusters :
  unique (classify_from c clusters) + length (heads clusters)
  = unique c + length clusters.
Proof.
  revert c. induction clusters as [|cluster clusters IH]; intros c.
  - simpl. lia.
  - rewrite classify_from_cons, heads_cons.
    destruct cluster as [|c0 [|c1 rest]].
    + rewrite IH. simpl. lia.
    + rewrite IH. simpl. lia.
    + cbn [length]. rewrite Nat.add_succ_r, IH. simpl. lia.
Qed.

Lemma classify_from_size_duplicates c clusters :
  NoDup (concat clusters) → Forall (λ cluster, cluster ≠ []) clusters →
  (∀ x, x ∈ concat clusters → x ∉ duplicates c) →
  size (duplicates (classify_from c clusters)) + length clusters
  = size (duplicates c) + length (concat clusters).
Proof.
  revert c. induction clusters as [|cluster clusters IH]; intros c Hnd Hne Hfresh.
  - simpl. lia.
  - apply Forall_cons in Hne as [Hcl Hne]. simpl in Hnd, Hfresh.
    apply NoDup_app in Hnd as (Hnd1 & Hdisj & Hnd2).
    rewrite classify_from_cons. simpl concat. rewrite length_app.
    destruct cluster as [|c0 [|c1 rest]]; [done|..].
    + cbn [length]. rewrite Nat.add_succ_r, IH; [simpl; lia|done|done|].
      intros x Hx. apply Hfresh, elem_of_app. by right.
    + cbn [length]. rewrite Nat.add_succ_r, IH; [|done|done|].
      * rewrite classify_step_duplicate. cbn [duplicates].
        rewrite size_union.
        -- rewrite size_list_to_set by (by apply NoDup_cons in Hnd1 as [_ ?]).
           simpl. lia.
        -- intros x Hx [Hx1|Hx1]%elem_of_list_to_set%elem_of_cons.
           ++ subst x. apply (Hfresh c1); [|done].
              apply elem_of_app. left. right. by left.
           ++ apply (Hfresh x); [|done].
              apply elem_of_app. left. right. by right.
      * intros x Hx. rewrite classify_step_duplicate. cbn [duplicates].
        rewrite elem_of_union, elem_of_list_to_set. intros [Hd|Hd].
        -- apply (Hfresh x); [|done]. apply elem_of_app. by right.
        -- apply (Hdisj x); [by right|done].
Qed.

Lemma entries_snd recs ps :
  entries recs = Ok ps → ps.*2 = (λ rec, Py.upper rec.2) <$> recs.
Proof.
  revert ps. induction recs as [|[title seq] recs IH]; intros ps; simpl.
  - by intros [= <-].
  - destruct (first_word title); simpl; [|done].
    destruct (entries recs) as [more|]; simpl; [|done].
    intros [= <-]. rewrite fmap_cons. simpl. f_equal. by apply IH.
Qed.

Lemma first_occurrences_keys seen recs :
  (λ rec, Py.upper rec.2) <$> first_occurrences seen recs
  = filter (λ k, k ∉ seen) (first_seen ((λ rec, Py.upper rec.2) <$> recs)).
Proof.
  revert seen. induction recs as [|[title seq] recs IH]; intros seen; [done|].
  rewrite fmap_cons. cbn [first_occurrences first_seen snd].
  rewrite filter_cons. destruct (decide (Py.upper seq ∈ seen)) as [Hin|Hin].
  - rewrite decide_False by (by intros ?). rewrite IH, list_filter_filter.
    apply list_filter_iff. intros k. split; [|by intros [? _]].
    intros Hk. split; [done|]. by intros ->.
  - rewrite decide_True by done. rewrite fmap_cons. cbn [snd]. f_equal.
    rewrite IH, list_filter_filter. apply list_filter_iff.
    intros k. rewrite not_elem_of_cons. tauto.
Qed.

(** X8.  When the identifiers of the records are pairwise distinct, the
    numbers of the summary add up: the unique entries and the
    representative records together are the distinct sequences, which are
    the sequences of the records kept, in that order; and the duplicates
    removed together with them are all the records. *)
Theorem summary_adds_up w input_fasta by_seq recs ps :
  index_files w [] input_fasta = Ok by_seq →
  stream w input_fasta = Ok recs → entries recs = Ok ps → NoDup ps.*1 →
  unique (classify by_seq) + size (representatives (classify by_seq))
    = length by_seq
  ∧ size (duplicates (classify by_seq)) + length by_seq = length recs
  ∧ (λ rec, Py.upper rec.2) <$> first_occurrences [] recs = by_seq.*1.
Proof.
  intros Hidx Hs He Hnd.
  rewrite (index_files_ok w [] input_fasta recs ps Hs He) in Hidx.
  injection Hidx as <-.
  assert (NoDup (concat (index_of [] ps).*2)) as Hcat.
  { by rewrite (index_of_concat ps []). }
  split; [|split].
  - unfold classify.
    rewrite classify_from_size_representatives;
      [|by apply heads_NoDup|intros; apply lookup_empty].
    pose proof (classify_from_unique_heads (Classes 0 ∅ ∅) (index_of [] ps).*2) as H.
    cbn [unique representatives] in *. rewrite length_fmap in H.
    rewrite map_size_empty. lia.
  - unfold classify.
    pose proof (classify_from_size_duplicates (Classes 0 ∅ ∅) (index_of [] ps).*2
                  Hcat (index_of_nonempty ps [] (Forall_nil_2 _))) as H.
    rewrite length_fmap in H. rewrite H by (intros; apply not_elem_of_empty).
    cbn [duplicates]. rewrite size_empty, (index_of_concat ps []). simpl.
    rewrite length_fmap. by apply entries_length.
  - rewrite first_occurrences_keys, index_of_fst, <-(entries_snd recs ps He).
    simpl. done.
Qed.

Lemma summary_adds_up_witness :
  unique (classify [("ACGT", ["r1"; "r2"]); ("GGCC", ["r3"])])
    + size (representatives (classify [("ACGT", ["r1"; "r2"]); ("GGCC", ["r3"])]))
    = length [("ACGT", ["r1"; "r2"]); ("GGCC", ["r3"])]
  ∧ size (duplicates (classify [("ACGT", ["r1"; "r2"]); ("GGCC", ["r3"])]))
      + length [("ACGT", ["r1"; "r2"]); ("GGCC", ["r3"])]
    = length [("r1", "ACGT"); ("r2 x", "ACGT"); ("r3", "GGCC")]
  ∧ (λ rec, Py.upper rec.2)
      <$> first_occurrences [] [("r1", "ACGT"); ("r2 x", "ACGT"); ("r3", "GGCC")]
    = [("ACGT", ["r1"; "r2"]); ("GGCC", ["r3"])].*1.
Proof.
  apply (summary_adds_up w_scenario ["A.fasta"]
    [("ACGT", ["r1"; "r2"]); ("GGCC", ["r3"])]
    [("r1", "ACGT"); ("r2 x", "ACGT"); ("r3", "GGCC")]
    [("r1", "ACGT"); ("r2", "ACGT"); ("r3", "GGCC")]).
  - vm_compute. reflexivity.
  - vm_compute. reflexivity.
  - vm_compute. reflexivity.
  - apply (bool_decide_unpack _). vm_compute. exact I.
Defined.

(** With an identifier on two records the suppression set counts it once:
    three records, one distinct sequence, one duplicate reported. *)
Example summary_undercounts :
  make_nr (World (Ok tt) {[ "A.fasta" := [("a", "AA"); ("a", "AA"); ("a", "AA")] ]} ∅ "/data")
          ["A.fasta"] "out.fasta" ";" =
    ([OpenW "out.fasta";
      Write "out.fasta" (">a;a;a representing 3 records" +:+ nl +:+ "AA" +:+ nl);
      Write "out.fasta" (">a;a;a representing 3 records" +:+ nl +:+ "AA" +:+ nl);
      Write "out.fasta" (">a;a;a representing 3 records" +:+ nl +:+ "AA" +:+ nl);
      Print "0 unique entries; removed 1 duplicates leaving 1 representative records"],
     Ok tt).
Proof. vm_compute. reflexivity. Qed.

(** ** When a run succeeds *)








(** A run on an output that cannot be opened fails after the first pass,
    and has done nothing. *)
Example unwritable_output_run :
  make_nr (World (Ok tt) {[ "A.fasta" := [("r1", "ACGT"); ("r2", "ACGT")] ]}
                 {[ "nodir/out.fasta" ]} "/data")
          ["A.fasta"] "nodir/out.fasta" ";"
  = ([], Raise (OSError "nodir/out.fasta")).
Proof. vm_compute. reflexivity. Qed.

(** A run whose output is its input opens it for writing, which empties
    it, and then finds no record in it to write. *)
Example output_is_input_run :
  make_nr (World (Ok tt) {[ "A.fasta" := [("r1", "ACGT"); ("r2", "ACGT")] ]} ∅ "/data")
          ["A.fasta"] "A.fasta" ";"
  = ([OpenW "A.fasta";
      Print "0 unique entries; removed 1 duplicates leaving 1 representative records"],
     Ok tt).
Proof. vm_compute. reflexivity. Qed.

(** ** The identifier of a title *)

Lemma lstrip_blank ws s : blank ws → Py.lstrip (ws +:+ s) = Py.lstrip s.
Proof.
  unfold blank. induction ws as [|c ws IH]; simpl; [done|].
  intros [Hc Hws]%Forall_cons. rewrite Hc. by apply IH.
Qed.

Lemma lstrip_split s : ∃ ws, blank ws ∧ s = ws +:+ Py.lstrip s.
Proof.
  induction s as [|c s (ws & Hws & Hs)]; simpl.
  - exists "". split; [constructor|done].
  - destruct (Py.isspace c) eqn:Hc.
    + exists (String c ws). split; [by constructor|].
      change (String c ws +:+ Py.lstrip s) with (String c (ws +:+ Py.lstrip s)).
      by f_equal.
    + exists "". split; [constructor|done].
Qed.

Lemma lstrip_head s c s' : Py.lstrip s = String c s' → Py.isspace c = false.
Proof.
  induction s as [|c0 s IH]; simpl; [done|].
  destruct (Py.isspace c0) eqn:Hc0; [done|]. by intros [= <- _].
Qed.

Lemma word_solid idn rest :
  Forall (λ c, Py.isspace c = false) (list_ascii_of_string idn) →
  after_word rest → Py.word (idn +:+ rest) = idn.
Proof.
  induction idn as [|c idn IH]; simpl.
  - intros _ [->|(c & r & -> & Hc)]; [done|]. simpl. by rewrite Hc.
  - intros [Hc Hidn]%Forall_cons Hrest. rewrite Hc. f_equal. by apply IH.
Qed.

Lemma word_split s :
  ∃ rest, s = Py.word s +:+ rest
    ∧ Forall (λ c, Py.isspace c = false) (list_ascii_of_string (Py.word s))
    ∧ after_word rest.
Proof.
  induction s as [|c s (rest & Hs & Hw & Hrest)]; simpl.
  - exists "". split; [done|]. split; [constructor|by left].
  - destruct (Py.isspace c) eqn:Hc.
    + exists (String c s). split; [done|]. split; [constructor|].
      right. by exists c, s.
    + exists rest. split; [|split; [by constructor|done]].
      change (String c (Py.word s) +:+ rest) with (String c (Py.word s +:+ rest)).
      by f_equal.
Qed.

(** X10.  The identifier of a title is its first word: a title has the
    identifier [idn] exactly when it is made of white space, possibly none,
    then [idn], which is not empty and has no white space, then nothing
    or white space and whatever follows. *)
Theorem first_word_iff title idn :
  first_word title = Ok idn ↔
  ∃ ws rest, title = ws +:+ idn +:+ rest ∧ blank ws ∧ solid idn ∧ after_word rest.
Proof.
  split.
  - unfold first_word. destruct (Py.lstrip title) as [|c s'] eqn:Hstrip; [done|].
    intros [= <-].
    destruct (lstrip_split title) as (ws & Hws & Htitle).
    destruct (word_split (String c s')) as (rest & Hs & Hw & Hrest).
    exists ws, rest. split; [by rewrite Htitle, Hstrip, Hs at 1|].
    split; [done|]. split; [|done]. split; [|done].
    simpl. by rewrite (lstrip_head title c s' Hstrip).
  - intros (ws & rest & -> & Hws & [Hne Hidn] & Hrest).
    unfold first_word. rewrite (lstrip_blank ws _ Hws).
    destruct idn as [|c idn]; [done|]. simpl.
    apply Forall_cons in Hidn as [Hc Hidn]. rewrite !Hc. do 2 f_equal.
    by apply word_solid.
Qed.

Example first_word_of_title :
  first_word "read1 description text" = Ok "read1"
  ∧ first_word "  read1" = Ok "read1"
  ∧ first_word "" = Raise IndexError.
Proof. repeat split. Qed.

(** ** How a run fails *)





(** ** Distinct identifiers: the order of the dictionary and the clusters kept *)

Lemma classify_values (values : index → list (list string)) (by_seq : index) c :
  values by_seq ≡ₚ by_seq.*2 → NoDup (concat by_seq.*2) →
  classify_from c (values by_seq) = classify_from c by_seq.*2.
Proof.
  intros Hperm Hnd. symmetry.
  apply classify_from_Permutation; [done|by apply heads_NoDup].
Qed.

(** X12.  Two runs give the same effects and the same outcome when the
    identifiers of the records are pairwise distinct, in whatever order
    the dictionary of each run yields its clusters and whatever else
    differs around them, as long as the two runs agree on the import, on
    the named input files and on whether the output can be opened, and
    the output is none of the inputs. *)
Theorem make_nr_order_independent
  values1 values2 w1 w2 input_fasta output_fasta sep :
  (∀ by_seq, values1 by_seq ≡ₚ by_seq.*2) →
  (∀ by_seq, values2 by_seq ≡ₚ by_seq.*2) →
  import_parser w1 = import_parser w2 →
  (∀ f, f ∈ input_fasta → files w1 !! f = files w2 !! f) →
  (output_fasta ∈ unwritable w1 ↔ output_fasta ∈ unwritable w2) →
  output_fasta ∉ input_fasta →
  (∀ recs ps, stream w1 input_fasta = Ok recs → entries recs = Ok ps →
              NoDup ps.*1) →
  make_nr_with values1 w1 input_fasta output_fasta sep
  = make_nr_with values2 w2 input_fasta output_fasta sep.
Proof.
  intros Hv1 Hv2 Himp Hfiles Hunw Hout Hids.
  unfold make_nr_with, load_parser. rewrite <-Himp.
  destruct (import_parser w1) as [[]|e]; [|by destruct e].
  rewrite <-(index_files_ext w1 w2 input_fasta Hfiles [] input_fasta) by done.
  destruct (index_files w1 [] input_fasta) as [by_seq|e] eqn:Hidx; [|done].
  apply index_files_inv in Hidx as (recs & ps & Hs & He & ->).
  assert (NoDup (concat (index_of [] ps).*2)) as Hcat.
  { rewrite (index_of_concat ps []). simpl. by eapply Hids. }
  unfold lift, mbind, M_bind. cbv zeta.
  rewrite (classify_values values1 _ _ (Hv1 _) Hcat).
  rewrite (classify_values values2 _ _ (Hv2 _) Hcat).
  case_decide; [|done].
  destruct (decide (output_fasta ∈ unwritable w1)) as [Hw|Hw].
  - rewrite (open_w_refused w1 output_fasta Hw).
    by rewrite (open_w_refused w2 output_fasta (proj1 Hunw Hw)).
  - rewrite (open_w_ok w1 output_fasta Hw).
    rewrite (open_w_ok w2 output_fasta (λ Hw2, Hw (proj2 Hunw Hw2))).
    rewrite !(rewrite_files_opened _ _ sep output_fasta input_fasta Hout).
    by rewrite (rewrite_files_ext w1 w2 input_fasta Hfiles _ sep output_fasta
                  input_fasta).
Qed.

Lemma make_nr_order_independent_witness :
  make_nr_with (λ by_seq, by_seq.*2) w_scenario ["A.fasta"] "out.fasta" ";"
  = make_nr_with (λ by_seq, reverse by_seq.*2)
      (World (Ok tt)
         {[ "A.fasta" := [("r1", "ACGT"); ("r2 x", "ACGT"); ("r3", "GGCC")];
            "B.fasta" := [("r9", "TTTT")] ]} ∅ "/home")
      ["A.fasta"] "out.fasta" ";".
Proof.
  apply (make_nr_order_independent (λ by_seq, by_seq.*2)
           (λ by_seq, reverse by_seq.*2)).
  - intros by_seq. reflexivity.
  - intros by_seq. apply reverse_Permutation.
  - reflexivity.
  - intros f ->%list_elem_of_singleton. vm_compute. reflexivity.
  - split; intros []%not_elem_of_empty.
  - apply (bool_decide_unpack _). vm_compute. exact I.
  - intros recs ps Hs He. vm_compute in Hs. injection Hs as <-.
    vm_compute in He. injection He as <-.
    apply (bool_decide_unpack _). vm_compute. exact I.
Defined.

Lemma classify_from_cluster_sizes c clusters :
  NoDup (heads clusters) →
  (∀ h, h ∈ heads clusters → representatives c !! h = None) →
  cluster_sizes (classify_from c clusters)
  = cluster_sizes c
    + sum_list_with length (filter (λ cluster, 1 < length cluster) clusters).
Proof.
  revert c. induction clusters as [|cluster clusters IH]; intros c Hnd Hfresh.
  - simpl. lia.
  - rewrite classify_from_cons, filter_cons.
    rewrite heads_cons in Hnd, Hfresh.
    destruct cluster as [|c0 [|c1 rest]].
    + rewrite decide_False by (simpl; lia). by rewrite IH.
    + rewrite decide_False by (simpl; lia). by rewrite IH.
    + rewrite decide_True by (simpl; lia).
      apply NoDup_cons in Hnd as [Hc0 Hnd]. rewrite IH; [|done|].
      * rewrite classify_step_duplicate.
        unfold cluster_sizes at 1. cbn [representatives].
        rewrite map_fold_insert_L; [|intros; lia|apply Hfresh; by left].
        fold (cluster_sizes c). cbn [sum_list_with]. lia.
      * intros h Hh. rewrite classify_step_duplicate. cbn [representatives].
        rewrite lookup_insert_ne by (by intros ->). apply Hfresh. by right.
Qed.

(** X14.  When the identifiers of the records are pairwise distinct, the
    unique count plus the sizes of the clusters kept in the representative
    map is the number of records. *)
Theorem unique_plus_kept_cluster_sizes w input_fasta by_seq recs ps :
  index_files w [] input_fasta = Ok by_seq →
  stream w input_fasta = Ok recs → entries recs = Ok ps → NoDup ps.*1 →
  unique (classify by_seq) + cluster_sizes (classify by_seq) = length recs.
Proof.
  intros Hidx Hs He Hnd.
  rewrite (index_files_ok w [] input_fasta recs ps Hs He) in Hidx.
  injection Hidx as <-.
  assert (NoDup (concat (index_of [] ps).*2)) as Hcat.
  { by rewrite (index_of_concat ps []). }
  unfold classify.
  rewrite classify_from_cluster_sizes;
    [|by apply heads_NoDup|intros; apply lookup_empty].
  pose proof (classify_from_count (Classes 0 ∅ ∅) (index_of [] ps).*2
                (index_of_nonempty ps [] (Forall_nil_2 _))) as Hcount.
  unfold cluster_sizes at 1. cbn [representatives unique] in *.
  rewrite map_fold_empty.
  rewrite (index_of_concat ps []) in Hcount. simpl in Hcount.
  rewrite length_fmap, (entries_length recs ps He) in Hcount. lia.
Qed.

Lemma unique_plus_kept_cluster_sizes_witness :
  unique (classify [("ACGT", ["r1"; "r2"]); ("GGCC", ["r3"])])
    + cluster_sizes (classify [("ACGT", ["r1"; "r2"]); ("GGCC", ["r3"])])
  = length [("r1", "ACGT"); ("r2 x", "ACGT"); ("r3", "GGCC")].
Proof.
  apply (unique_plus_kept_cluster_sizes w_scenario ["A.fasta"]
    [("ACGT", ["r1"; "r2"]); ("GGCC", ["r3"])]
    [("r1", "ACGT"); ("r2 x", "ACGT"); ("r3", "GGCC")]
    [("r1", "ACGT"); ("r2", "ACGT"); ("r3", "GGCC")]).
  - vm_compute. reflexivity.
  - vm_compute. reflexivity.
  - vm_compute. reflexivity.
  - apply (bool_decide_unpack _). vm_compute. exact I.
Defined.
